(** * crawlexsses: a shallow embedding of [crawlexsses.py]

    The orchestrator is glue code around external programs.  The embedding
    keeps its shape:

    - a Python [str] is a list of Unicode code points ([list N]);
    - the working directory is a finite map from paths to nodes (a regular
      file with its decoded text, or a directory);
    - what the process does to the outside world (child processes, sleeps,
      writes to stdout and stderr) is recorded in a trace of events;
    - the external programs are an oracle that, given the history so far,
      the file system, the argument vector and the piped input, answers
      with an exit status, the two output streams and the file system the
      child leaves behind;
    - Python exceptions ([RuntimeError], [OSError], [SystemExit]) are an
      error monad layered on the state.

    Decoding and encoding of UTF-8 are abstracted: streams and files hold
    text.  I/O failures other than a missing file or a directory in the
    place of a file are not modelled. *)

From Stdlib Require Import ZArith Ascii String Lia.
From stdpp Require Import gmap strings list sorting pretty.

Set Default Proof Using "Type".

(* ================================================================== *)
(** * Part I: the program *)
(* ================================================================== *)

(** ** Text *)

Abbreviation str := (list N).

(** ASCII literal to code points. *)
Fixpoint cp (s : string) : str :=
  match s with
  | EmptyString => []
  | String a s' => N_of_ascii a :: cp s'
  end.

Arguments cp : simpl never.

Definition LF : N := 10.
Definition CR : N := 13.
Definition DOT : N := 46.
Definition EQUALS : N := 61.
Definition QMARK : N := 63.

(** [str.isspace] on one code point: the characters [str.strip()]
    removes. *)
Definition isspace (c : N) : bool :=
  ((9 <=? c) && (c <=? 13) || (28 <=? c) && (c <=? 31) || (c =? 32)
   || (c =? 133) || (c =? 160) || (c =? 5760)
   || (8192 <=? c) && (c <=? 8202)
   || (c =? 8232) || (c =? 8233) || (c =? 8239) || (c =? 8287)
   || (c =? 12288))%N.

Fixpoint lstrip (s : str) : str :=
  match s with
  | [] => []
  | c :: t => if isspace c then lstrip t else s
  end.

Definition rstrip (s : str) : str := reverse (lstrip (reverse s)).

(** [s.strip()] *)
Definition strip (s : str) : str := rstrip (lstrip s).

(** Truthiness of a [str] or of a list: non-empty. *)
Definition truthy {A} (l : list A) : bool :=
  match l with [] => false | _ => true end.

(** Line boundaries of [str.splitlines()]. *)
Definition is_linebreak (c : N) : bool :=
  ((c =? 10) || (c =? 11) || (c =? 12) || (c =? 13) || (c =? 28)
   || (c =? 29) || (c =? 30) || (c =? 133) || (c =? 8232)
   || (c =? 8233))%N.

Fixpoint splitlines_from (cur s : str) : list str :=
  match s with
  | [] => match cur with [] => [] | _ => [cur] end
  | c :: t =>
      if is_linebreak c then
        cur :: (if (c =? CR)%N then
                  match t with
                  | c' :: t' =>
                      if (c' =? LF)%N then splitlines_from [] t'
                      else splitlines_from [] t
                  | [] => splitlines_from [] t
                  end
                else splitlines_from [] t)
      else splitlines_from (cur ++ [c]) t
  end.

(** [s.splitlines()] *)
Definition splitlines (s : str) : list str := splitlines_from [] s.

(** Reading a file opened in text mode with the default [newline=None]:
    a lone CR and CR LF both become LF ... *)
Fixpoint universal_newlines (s : str) : str :=
  match s with
  | [] => []
  | c :: t =>
      if (c =? CR)%N then
        LF :: match t with
              | c' :: t' =>
                  if (c' =? LF)%N then universal_newlines t'
                  else universal_newlines t
              | [] => universal_newlines t
              end
      else c :: universal_newlines t
  end.

(** ... and iterating over the file yields the lines with their
    terminating LF (absent from an unterminated last line). *)
Fixpoint iter_lines_from (cur s : str) : list str :=
  match s with
  | [] => match cur with [] => [] | _ => [cur] end
  | c :: t =>
      if (c =? LF)%N then (cur ++ [c]) :: iter_lines_from [] t
      else iter_lines_from (cur ++ [c]) t
  end.

Definition iter_lines (content : str) : list str :=
  iter_lines_from [] (universal_newlines content).

(** [sep.join(parts)] *)
Fixpoint join (sep : str) (parts : list str) : str :=
  match parts with
  | [] => []
  | p :: rest =>
      match rest with
      | [] => p
      | _ => p ++ sep ++ join sep rest
      end
  end.

(** [c in s] for a one-character needle. *)
Definition contains_char (c : N) (s : str) : bool :=
  existsb (N.eqb c) s.

(** Order of [str] comparison: lexicographic on code points. *)
Fixpoint str_leb (a b : str) : bool :=
  match a, b with
  | [], _ => true
  | _ :: _, [] => false
  | x :: a', y :: b' =>
      if (x <? y)%N then true
      else if (x =? y)%N then str_leb a' b' else false
  end.

(** [sorted(set(lines))] *)
Definition sorted_set (lines : list str) : list str :=
  merge_sort (λ a b, Is_true (str_leb a b))
             (elements (list_to_set lines : gset str)).

(** ** Sequence helpers *)

Section sequences.
Context {A : Type} `{Countable A}.

(** The loop of [unique_preserve_order]: [seen] is the set, [result]
    the list being appended to. *)
Fixpoint unique_preserve_order_loop
    (lines : list A) (seen : gset A) (result : list A) : list A :=
  match lines with
  | [] => result
  | line :: rest =>
      if decide (line ∈ seen)
      then unique_preserve_order_loop rest seen result
      else unique_preserve_order_loop rest ({[line]} ∪ seen)
                                      (result ++ [line])
  end.

Definition unique_preserve_order (lines : list A) : list A :=
  unique_preserve_order_loop lines ∅ [].

(** Proof device: what the loop adds to [result], as a function of the
    remaining input and of the set on entry. *)
Fixpoint fresh_of (seen : gset A) (l : list A) : list A :=
  match l with
  | [] => []
  | x :: t =>
      if decide (x ∈ seen) then fresh_of seen t
      else x :: fresh_of ({[x]} ∪ seen) t
  end.
End sequences.

(** [range(start, stop, step)] for [step >= 1], unrolled at most [fuel]
    times. *)
Fixpoint range_from (fuel start stop step : nat) : list nat :=
  match fuel with
  | O => []
  | S fuel' =>
      if start <? stop
      then start :: range_from fuel' (start + step) stop step
      else []
  end.

(** [range(0, stop, step)]: [stop] unrollings always suffice. *)
Definition range0 (stop step : nat) : list nat :=
  range_from stop 0 stop step.

(** [seq[i:j]] for [0 <= i <= j] *)
Definition slice {A} (seq : list A) (i j : nat) : list A :=
  take (j - i) (drop i seq).

(** The chunks [chunked(seq, size)] yields, in order. *)
Definition chunked {A} (seq : list A) (size : Z) : list (list A) :=
  if (size <=? 0)%Z then [seq]
  else
    let n := Z.to_nat size in
    map (λ i, slice seq i (i + n)) (range0 (length seq) n).

(** Words used by the statements about [unique_preserve_order]:
    position [i] of [l] holds the first occurrence of its element. *)
Definition first_occurrence {A} (l : list A) (i : nat) : Prop :=
  ∃ x, l !! i = Some x ∧ ∀ j, j < i → l !! j ≠ Some x.

(** ** The extension filter *)

(** The alternatives of [EXCLUDE_EXT_REGEX], in the order of the
    pattern. *)
Definition EXCLUDE_EXTS : list string :=
  ["css"; "woff"; "woff2"; "txt"; "js"; "m4r"; "m4p"; "m4b"; "ipa";
   "asa"; "pkg"; "crash"; "asf"; "asx"; "wax"; "wmv"; "wmx"; "avi";
   "bmp"; "class"; "divx"; "doc"; "docx"; "exe"; "gif"; "gz"; "gzip";
   "ico"; "jpg"; "jpeg"; "jpe"; "webp"; "json"; "mdb"; "mid"; "midi";
   "mov"; "qt"; "mp3"; "m4a"; "mp4"; "m4v"; "mpeg"; "mpg"; "mpe";
   "webm"; "mpp"; "_otf"; "odb"; "odc"; "odf"; "odg"; "odp"; "ods";
   "odt"; "ogg"; "pdf"; "png"; "pot"; "pps"; "ppt"; "pptx"; "ra";
   "ram"; "svg"; "svgz"; "swf"; "tar"; "tif"; "tiff"; "_ttf"; "wav";
   "wma"; "wri"; "xla"; "xls"; "xlsx"; "xlt"; "xlw"; "zip"]%string.

(** One literal of the pattern against one character of the text under
    [re.IGNORECASE].  The literals of this pattern are lower-case ASCII
    letters, digits, [_], [.] and [?].  A letter matches itself, its
    upper-case form and the non-ASCII characters Python folds onto it:
    U+0130 and U+0131 for [i], U+212A for [k], U+017F for [s].  The other
    literals match themselves only. *)
Definition literal_ignorecase (p c : N) : bool :=
  (if (97 <=? p) && (p <=? 122)
   then (c =? p) || (c =? p - 32)
        || (p =? 105) && ((c =? 304) || (c =? 305))
        || (p =? 107) && (c =? 8490)
        || (p =? 115) && (c =? 383)
   else c =? p)%N.

(** Match the literals [pat] at the head of [s]; what follows them. *)
Fixpoint match_literals (pat s : str) : option str :=
  match pat with
  | [] => Some s
  | p :: pat' =>
      match s with
      | [] => None
      | c :: s' =>
          if literal_ignorecase p c then match_literals pat' s' else None
      end
  end.

(** The tail [(?:$|\?)]: a question mark, or the end of the string; [$]
    also holds just before a line feed that ends the string. *)
Definition match_tail (rest : str) : bool :=
  match rest with
  | [] => true
  | c :: t => (c =? QMARK)%N || (c =? LF)%N && negb (truthy t)
  end.

(** The whole pattern at the head of [s]. *)
Definition match_here (s : str) : bool :=
  match s with
  | [] => false
  | c :: t =>
      (c =? DOT)%N
      && existsb (λ e, match match_literals (cp e) t with
                       | Some rest => match_tail rest
                       | None => false
                       end) EXCLUDE_EXTS
  end.

(** [EXCLUDE_EXT_REGEX.search(url)] as a truth value: the pattern
    matches at some position. *)
Fixpoint EXCLUDE_EXT_REGEX_search (url : str) : bool :=
  match_here url
  || match url with
     | [] => false
     | _ :: t => EXCLUDE_EXT_REGEX_search t
     end.

(** The comprehension of [filter_with_gf_uro_httpx]:
    [[url for url in gf_lines
      if "=" in url and not EXCLUDE_EXT_REGEX.search(url)]] *)
Definition structural_filter (gf_lines : list str) : list str :=
  List.filter
    (λ url, contains_char EQUALS url && negb (EXCLUDE_EXT_REGEX_search url))
    gf_lines.

(** Words used by the statements about the extension filter. *)

(** [x] spells the extension [e] up to letter case. *)
Definition spells (e : string) (x : str) : Prop :=
  Forall2 (λ p c, literal_ignorecase p c = true) (cp e) x.

Fixpoint spellsb_from (pat x : str) : bool :=
  match pat, x with
  | [], [] => true
  | p :: pat', c :: x' => literal_ignorecase p c && spellsb_from pat' x'
  | _, _ => false
  end.

(** [x] spells one of the listed extensions. *)
Definition listed (x : str) : bool :=
  existsb (λ e, spellsb_from (cp e) x) EXCLUDE_EXTS.

(** [url] is [prefix.x], or [prefix.x?query], where [x] spells a listed
    extension. *)
Definition ends_in_listed_extension (url : str) : Prop :=
  ∃ prefix e x rest,
    e ∈ EXCLUDE_EXTS ∧ spells e x
    ∧ url = prefix ++ DOT :: x ++ rest
    ∧ (rest = [] ∨ ∃ query, rest = QMARK :: query).

(** The string [url] ends in [.x]. *)
Definition ends_in_extension (x url : str) : Prop :=
  ∃ prefix, url = prefix ++ DOT :: x.

(** The text after the last [.] of a string, if it has one. *)
Fixpoint after_last_dot (s : str) : option str :=
  match s with
  | [] => None
  | c :: t =>
      match after_last_dot t with
      | Some x => Some x
      | None => if (c =? DOT)%N then Some t else None
      end
  end.

(** ASCII lower-casing of one character. *)
Definition ascii_lower (c : N) : N :=
  if ((65 <=? c) && (c <=? 90))%N then (c + 32)%N else c.

(** ** The world outside the process *)

(** What a path of the working directory names. *)
Inductive node :=
| File (content : str)
| Dir.

(** What the process does that can be observed from outside.  A child
    process is recorded with its argument vector, the text piped to it,
    the file its standard output is redirected to (with the append flag)
    and its exit status. *)
Inductive event :=
| Exec (argv : list str) (stdin : option str)
       (redirect : option (str * bool)) (status : Z)
| Sleep (milliseconds : N)
| Stdout (text : str)
| Stderr (text : str).

Record world := World {
  fs : gmap str node;
  trace : list event
}.

(** What a child process answers. *)
Record child := Child {
  child_status : Z;
  child_stdout : str;
  child_stderr : str;
  child_fs : gmap str node
}.

(** The environment of a run: what [shutil.which] resolves, how the
    external programs behave (given the history of the run, the file
    system, the argument vector and the piped input), and whether
    [colorama] could be imported. *)
Record env := Env {
  which : str → option str;
  spawn : list event → gmap str node → list str → option str → child;
  HAS_COLOR : bool
}.

(** ** Exceptions over state *)

Inductive exn :=
| RuntimeError (msg : string)
| OSError (path : str)
| SystemExit (code : Z).

Inductive outcome (A : Type) :=
| Ok (a : A)
| Raise (e : exn).
Arguments Ok {A} a.
Arguments Raise {A} e.

Definition M (A : Type) : Type := world → outcome A * world.

#[export] Instance M_ret : MRet M := λ A a w, (Ok a, w).

#[export] Instance M_bind : MBind M := λ A B f m w,
  match m w with
  | (Ok a, w') => f a w'
  | (Raise e, w') => (Raise e, w')
  end.

Definition raise {A} (e : exn) : M A := λ w, (Raise e, w).

Definition emit (ev : event) : M unit :=
  λ w, (Ok tt, World (fs w) (trace w ++ [ev])).

Definition get_fs : M (gmap str node) := λ w, (Ok (fs w), w).

Definition get_trace : M (list event) := λ w, (Ok (trace w), w).

Definition put_fs (f : gmap str node) : M unit :=
  λ w, (Ok tt, World f (trace w)).

(** [if c: m] *)
Definition when (c : bool) (m : M unit) : M unit :=
  if c then m else mret tt.

(** [time.sleep], in milliseconds. *)
Definition sleep (milliseconds : N) : M unit := emit (Sleep milliseconds).

(** ** Files *)

(** [os.path.exists(path)] *)
Definition path_exists (path : str) : M bool :=
  f ← get_fs; mret (bool_decide (is_Some (f !! path))).

(** [os.remove(path)] *)
Definition remove (path : str) : M unit :=
  f ← get_fs;
  match f !! path with
  | Some (File _) => put_fs (delete path f)
  | _ => raise (OSError path)
  end.

(** [open(path, "r")] and reading it whole. *)
Definition read_text (path : str) : M str :=
  f ← get_fs;
  match f !! path with
  | Some (File content) => mret content
  | _ => raise (OSError path)
  end.

(** [open(path, "w")] or [open(path, "a")]: the text the file holds once
    opened.  Writing creates or truncates it, appending creates it when
    it is missing. *)
Definition open_for_output (path : str) (append : bool) : M str :=
  f ← get_fs;
  match f !! path with
  | Some Dir => raise (OSError path)
  | Some (File content) =>
      if append then mret content
      else put_fs (<[path := File []]> f) ;; mret []
  | None => put_fs (<[path := File []]> f) ;; mret []
  end.

(** The text [f.write(f"{line}\n")] leaves for each line in turn. *)
Definition render_lines (lines : list str) : str :=
  concat (map (λ line, line ++ [LF]) lines).

(** The comprehension [[s.strip() for s in lines if s.strip()]] of
    [read_lines] and of [subfinder_to_httpx]. *)
Definition stripped (lines : list str) : list str :=
  map strip (List.filter (λ s, truthy (strip s)) lines).

Definition read_lines (path : str) : M (list str) :=
  e ← path_exists path;
  if negb e then mret []
  else content ← read_text path; mret (stripped (iter_lines content)).

Definition write_lines (path : str) (lines : list str) : M unit :=
  open_for_output path false ;;
  f ← get_fs; put_fs (<[path := File (render_lines lines)]> f).

Definition append_lines (path : str) (lines : list str) : M unit :=
  before ← open_for_output path true;
  f ← get_fs; put_fs (<[path := File (before ++ render_lines lines)]> f).

(** ** Running a tool *)

Definition log_info (message : str) : M unit :=
  emit (Stdout (message ++ [LF])).

(** [subprocess.CompletedProcess]: [stdout] is [None] when the output
    went to a file. *)
Record CompletedProcess := Completed {
  returncode : Z;
  stdout : option str
}.

(** [run_command].  The parameter [capture_output] of the source is never
    read and is left out. *)
Definition run_command (E : env) (args : list str)
    (input_text : option str) (output_file : option str)
    (append verbose : bool) : M CompletedProcess :=
  when verbose (emit (Stderr (cp "[cmd] " ++ join (cp " ") args ++ [LF]))) ;;
  before ← match output_file with
           | Some path => open_for_output path append
           | None => mret []
           end;
  f ← get_fs;
  history ← get_trace;
  let proc := spawn E history f args input_text in
  put_fs match output_file with
         | Some path =>
             <[path := File (before ++ child_stdout proc)]> (child_fs proc)
         | None => child_fs proc
         end ;;
  emit (Exec args input_text
             (match output_file with
              | Some path => Some (path, append)
              | None => None
              end)
             (child_status proc)) ;;
  when (verbose && truthy (child_stderr proc))
       (emit (Stderr (child_stderr proc))) ;;
  mret {| returncode := child_status proc;
          stdout := match output_file with
                    | Some _ => None
                    | None => Some (child_stdout proc)
                    end |}.

(** [proc.stdout.decode(errors="ignore").splitlines()
     if proc.stdout else []] *)
Definition stdout_lines (proc : CompletedProcess) : list str :=
  match stdout proc with
  | Some text => if truthy text then splitlines text else []
  | None => []
  end.

(** [["\n".join(batch) + "\n"]] *)
Definition batch_input (batch : list str) : str := join [LF] batch ++ [LF].

(** ** The command line *)

(** The three values [argparse] lets through for [--mode]. *)
Inductive Mode :=
| mode_waymore
| mode_waymore_katana
| mode_all.

#[export] Instance Mode_eq_dec : EqDecision Mode.
Proof. solve_decision. Defined.

(** The parsed arguments. *)
Record Namespace := Args {
  arg_domain : str;
  arg_mode : Mode;
  arg_rate_limit : Z;
  arg_verbose : bool
}.

(** The two non-ASCII marks of the progress lines: U+2713 between
    brackets, and U+2192. *)
Definition TICK : str := cp "[" ++ [10003%N] ++ cp "]".
Definition ARROW : str := [8594%N].

(** ** The stages *)

Section stages.
Variable E : env.

(** The [for idx, batch in enumerate(chunked(...))] loop of
    [subfinder_to_httpx]. *)
Fixpoint subfinder_to_httpx_loop (subs_out : str) (rate_limit : Z)
    (verbose : bool) (idx : nat) (batches : list (list str)) : M unit :=
  match batches with
  | [] => mret tt
  | batch :: rest =>
      proc2 ← run_command E [cp "httpx"; cp "-silent"]
                (Some (batch_input batch)) (Some subs_out)
                (negb (idx =? 0)) verbose;
      if negb (returncode proc2 =? 0)%Z
      then raise (RuntimeError "httpx failed while probing subdomains")
      else
        when (rate_limit >? 0)%Z (sleep 100) ;;
        subfinder_to_httpx_loop subs_out rate_limit verbose (S idx) rest
  end.

Definition subfinder_to_httpx (domain subs_out : str) (rate_limit : Z)
    (verbose : bool) : M (nat * nat) :=
  proc ← run_command E
           [cp "subfinder"; cp "-d"; domain; cp "-all"; cp "-silent"]
           None None false verbose;
  if negb (returncode proc =? 0)%Z
  then raise (RuntimeError "subfinder failed")
  else
    let subdomains := stripped (stdout_lines proc) in
    if negb (truthy subdomains)
    then write_lines subs_out [] ;; mret (0, 0)
    else
      e ← path_exists subs_out;
      when e (remove subs_out) ;;
      subfinder_to_httpx_loop subs_out rate_limit verbose 0
        (chunked subdomains (if (rate_limit >? 0)%Z then rate_limit
                 else Z.of_nat (length subdomains))) ;;
      live ← read_lines subs_out;
      mret (length subdomains, length live).

Definition run_waymore (subs_file out_file : str) (verbose : bool)
    : M nat :=
  proc ← run_command E
           [cp "waymore"; cp "-i"; subs_file; cp "-mode"; cp "U"; cp "-oU";
            out_file]
           None None false verbose;
  if negb (returncode proc =? 0)%Z
  then raise (RuntimeError "waymore failed")
  else lines ← read_lines out_file; mret (length lines).

Definition run_katana (subs_file out_file : str) (verbose : bool)
    : M nat :=
  proc ← run_command E
           [cp "katana"; cp "-list"; subs_file; cp "-headless"; cp "-jc";
            cp "-d"; cp "5"; cp "-o"; out_file]
           None None false verbose;
  if negb (returncode proc =? 0)%Z
  then raise (RuntimeError "katana failed")
  else lines ← read_lines out_file; mret (length lines).

(** The [for i, batch in enumerate(batches)] loop of [run_gau];
    [total] is [len(batches)]. *)
Fixpoint run_gau_loop (out_file : str) (rate_limit : Z) (verbose : bool)
    (total i : nat) (batches : list (list str)) : M unit :=
  match batches with
  | [] => mret tt
  | batch :: rest =>
      proc ← run_command E [cp "gau"; cp "--subs"; cp "-o"; out_file]
               (Some (batch_input batch)) None false verbose;
      if negb (returncode proc =? 0)%Z
      then raise (RuntimeError "gau failed")
      else
        when ((rate_limit >? 0)%Z && (i + 1 <? total)) (sleep 100) ;;
        run_gau_loop out_file rate_limit verbose total (S i) rest
  end.

Definition run_gau (subs_file out_file : str) (rate_limit : Z)
    (verbose : bool) : M nat :=
  subs ← read_lines subs_file;
  if negb (truthy subs)
  then write_lines out_file [] ;; mret 0
  else
    e ← path_exists out_file;
    when e (remove out_file) ;;
    let batches := chunked subs (if (rate_limit >? 0)%Z then rate_limit
                 else Z.of_nat (length subs)) in
    run_gau_loop out_file rate_limit verbose (length batches) 0 batches ;;
    lines ← read_lines out_file;
    mret (length lines).

(** The [for path in outputs] loop of [merge_histories]. *)
Fixpoint merge_histories_loop (outputs : list str) (all_lines : list str)
    : M (list str) :=
  match outputs with
  | [] => mret all_lines
  | path :: rest =>
      lines ← read_lines path;
      merge_histories_loop rest (all_lines ++ lines)
  end.

Definition merge_histories (outputs : list str) (merged_out : str)
    : M unit :=
  all_lines ← merge_histories_loop outputs [];
  let merged := unique_preserve_order all_lines in
  write_lines merged_out merged.

(** The normalisation loop of [filter_with_gf_uro_httpx]. *)
Fixpoint uro_loop (rate_limit : Z) (verbose : bool)
    (batches : list (list str)) (normalized_all : list str)
    : M (list str) :=
  match batches with
  | [] => mret normalized_all
  | batch :: rest =>
      proc_uro ← run_command E [cp "uro"] (Some (batch_input batch))
                   None false verbose;
      if negb (returncode proc_uro =? 0)%Z
      then raise (RuntimeError "uro failed")
      else
        let normalized_all := normalized_all ++ stdout_lines proc_uro in
        when (rate_limit >? 0)%Z (sleep 50) ;;
        uro_loop rate_limit verbose rest normalized_all
  end.

(** The probing loop of [filter_with_gf_uro_httpx]. *)
Fixpoint httpx_loop (rate_limit : Z) (verbose : bool)
    (batches : list (list str)) (probed_all : list str)
    : M (list str) :=
  match batches with
  | [] => mret probed_all
  | batch :: rest =>
      proc_httpx ← run_command E [cp "httpx"; cp "-silent"]
                     (Some (batch_input batch)) None false verbose;
      if negb (returncode proc_httpx =? 0)%Z
      then raise (RuntimeError "httpx failed while probing URLs")
      else
        let probed_all := probed_all ++ stdout_lines proc_httpx in
        when (rate_limit >? 0)%Z (sleep 50) ;;
        httpx_loop rate_limit verbose rest probed_all
  end.

(** [[s for s in lines if s.strip()]] *)
Definition nonblank (lines : list str) : list str :=
  List.filter (λ s, truthy (strip s)) lines.

Definition filter_with_gf_uro_httpx (merged_in final_out : str)
    (rate_limit : Z) (verbose : bool) : M (nat * nat * nat * nat) :=
  lines ← read_lines merged_in;
  if negb (truthy lines)
  then write_lines final_out [] ;; mret (0, 0, 0, 0)
  else
    let lines := sorted_set lines in
    proc_gf ← run_command E [cp "gf"; cp "xss"]
                (Some (batch_input lines)) None false verbose;
    if negb (returncode proc_gf =? 0)%Z
    then raise (RuntimeError "gf xss failed")
    else
      let gf_lines := stdout_lines proc_gf in
      let filtered := structural_filter gf_lines in
      if negb (truthy filtered)
      then write_lines final_out [] ;; mret (length gf_lines, 0, 0, 0)
      else
        e ← path_exists final_out;
        when e (remove final_out) ;;
        normalized_all ←
          uro_loop rate_limit verbose
            (chunked filtered (if (rate_limit >? 0)%Z then rate_limit
                 else Z.of_nat (length filtered))) [];
        let normalized_all :=
          unique_preserve_order (nonblank normalized_all) in
        if negb (truthy normalized_all)
        then write_lines final_out [] ;;
             mret (length gf_lines, length filtered, 0, 0)
        else
          probed_all ←
            httpx_loop rate_limit verbose
              (chunked normalized_all
                       (if (rate_limit >? 0)%Z then rate_limit
                 else Z.of_nat (length normalized_all))) [];
          let probed_all := unique_preserve_order (nonblank probed_all) in
          write_lines final_out probed_all ;;
          mret (length gf_lines, length filtered, length normalized_all,
                length probed_all).

Definition run_knoxnl (input_file out_file : str) (verbose : bool)
    : M nat :=
  proc ← run_command E
           [cp "knoxnl"; cp "-i"; input_file; cp "-X"; cp "BOTH"; cp "-s";
            cp "-o"; out_file]
           None None false verbose;
  if negb (returncode proc =? 0)%Z
  then raise (RuntimeError "knoxnl failed")
  else lines ← read_lines out_file; mret (length lines).

(** [ensure_tools_exist] *)
Definition ensure_tools_exist (tools : list str) : bool * list str :=
  let missing :=
    List.filter (λ tool, bool_decide (which E tool = None)) tools in
  (length missing =? 0, missing).

(** The list [required] that [main] builds for a mode. *)
Definition required_tools (mode : Mode) : list str :=
  [cp "subfinder"; cp "httpx"; cp "gf"; cp "uro"; cp "knoxnl"]
  ++ (if bool_decide (mode ∈ [mode_waymore; mode_waymore_katana; mode_all])
      then [cp "waymore"] else [])
  ++ (if bool_decide (mode ∈ [mode_waymore_katana; mode_all])
      then [cp "katana"] else [])
  ++ (if bool_decide (mode = mode_all) then [cp "gau"] else []).

(** [print_banner].  The block-letter art between the colour codes and
    the two caption lines is left out of the text. *)
Definition print_banner : M unit :=
  let color_start :=
    if HAS_COLOR E then [27%N] ++ cp "[32m" ++ [27%N] ++ cp "[1m" else [] in
  let color_end := if HAS_COLOR E then [27%N] ++ cp "[0m" else [] in
  let banner :=
    color_start ++ [LF]
    ++ cp "                           XSS Discovery Tool - Find those hidden XSS gems!"
    ++ [LF]
    ++ cp "                                      Author: 0xhollow"
    ++ [LF] ++ color_end in
  emit (Stdout (banner ++ [LF])).

(** [sum(len(read_lines(p)) for p in generated)] *)
Fixpoint sum_line_counts (generated : list str) (total : nat) : M nat :=
  match generated with
  | [] => mret total
  | p :: rest =>
      lines ← read_lines p;
      sum_line_counts rest (total + length lines)
  end.

Definition main (args : Namespace) : M unit :=
  print_banner ;;
  let domain := strip (arg_domain args) in
  let mode := arg_mode args in
  let rate :=
    if (arg_rate_limit args =? 0)%Z then 0%Z else arg_rate_limit args in
  let verbose := arg_verbose args in
  let subs_file := cp "subs.txt" in
  let waymore_file := cp "xss-waymore.txt" in
  let katana_file := cp "xss-katana.txt" in
  let gau_file := cp "xss-gau.txt" in
  let merged_file := cp "xss.txt" in
  let knox_out := cp "xssoutput.txt" in
  let required := required_tools mode in
  let '(ok, missing) := ensure_tools_exist required in
  if negb ok
  then
    emit (Stderr (cp "Missing required tools: "
                  ++ join (cp ", ") missing ++ [LF])) ;;
    emit (Stderr (cp "Please install them and ensure they are in PATH."
                  ++ [LF])) ;;
    raise (SystemExit 1)
  else
    log_info (cp ">>> subfinder: discovering subdomains for " ++ domain
              ++ cp " ...") ;;
    '(discovered, live) ← subfinder_to_httpx domain subs_file rate verbose;
    log_info (TICK ++ cp " subfinder: " ++ cp (pretty discovered)
              ++ cp " discovered; httpx live: " ++ cp (pretty live)) ;;
    generated ←
      (if bool_decide
            (mode ∈ [mode_waymore; mode_waymore_katana; mode_all])
       then
         log_info (cp ">>> waymore: collecting historical URLs ...") ;;
         waymore_count ← run_waymore subs_file waymore_file verbose;
         log_info (TICK ++ cp " waymore: " ++ cp (pretty waymore_count)
                   ++ cp " URLs") ;;
         mret [waymore_file]
       else mret []);
    generated ←
      (if bool_decide (mode ∈ [mode_waymore_katana; mode_all])
       then
         log_info (cp ">>> katana: crawling for URLs ...") ;;
         katana_count ← run_katana subs_file katana_file verbose;
         log_info (TICK ++ cp " katana: " ++ cp (pretty katana_count)
                   ++ cp " URLs") ;;
         mret (generated ++ [katana_file])
       else mret generated);
    generated ←
      (if bool_decide (mode = mode_all)
       then
         log_info (cp ">>> gau: fetching known URLs ...") ;;
         gau_count ← run_gau subs_file gau_file rate verbose;
         log_info (TICK ++ cp " gau: " ++ cp (pretty gau_count)
                   ++ cp " URLs") ;;
         mret (generated ++ [gau_file])
       else mret generated);
    log_info (cp ">>> merge: combining history into xss.txt ...") ;;
    pre_merge_total ← sum_line_counts generated 0;
    merge_histories generated merged_file ;;
    merged_lines ← read_lines merged_file;
    let merged_unique := length merged_lines in
    log_info (TICK ++ cp " merge: " ++ cp (pretty pre_merge_total)
              ++ cp " total " ++ ARROW ++ cp " "
              ++ cp (pretty merged_unique) ++ cp " unique") ;;
    log_info (cp ">>> filter: gf " ++ ARROW ++ cp " '=' & ext-filter "
              ++ ARROW ++ cp " uro " ++ ARROW ++ cp " httpx ...") ;;
    '(gf_count, filtered_count, normalized_count, live_urls) ←
      filter_with_gf_uro_httpx merged_file merged_file rate verbose;
    log_info (TICK ++ cp " filter: gf=" ++ cp (pretty gf_count)
              ++ cp " " ++ ARROW ++ cp " '='+ext="
              ++ cp (pretty filtered_count)
              ++ cp " " ++ ARROW ++ cp " uro="
              ++ cp (pretty normalized_count)
              ++ cp " " ++ ARROW ++ cp " httpx live="
              ++ cp (pretty live_urls)) ;;
    log_info (cp ">>> knoxnl: scanning for XSS ...") ;;
    knox_count ← run_knoxnl merged_file knox_out verbose;
    log_info (TICK ++ cp " knoxnl: results=" ++ cp (pretty knox_count)
              ++ cp " lines " ++ ARROW ++ cp " " ++ knox_out) ;;
    log_info
      (cp "[done] Files saved:" ++ [LF]
       ++ strip (join [LF]
            [cp " - " ++ subs_file;
             cp " - "
             ++ (if bool_decide
                      (mode ∈ [mode_waymore; mode_waymore_katana; mode_all])
                 then waymore_file else []);
             cp " - "
             ++ (if bool_decide (mode ∈ [mode_waymore_katana; mode_all])
                 then katana_file else []);
             cp " - "
             ++ (if bool_decide (mode = mode_all) then gau_file else []);
             cp " - " ++ merged_file;
             cp " - " ++ knox_out])).

End stages.
(** ** Words used by the statements about the stages *)

(** Every event a computation adds to the trace satisfies [P], however
    the computation ends. *)
Definition emits {A} (P : event → Prop) (m : M A) : Prop :=
  ∀ w, ∃ evs, trace (m w).2 = trace w ++ evs ∧ Forall P evs.

(** Every event the computation adds satisfies [Q], and if one of them
    satisfies [F] the computation ends by raising [err]. *)
Definition guarded {A} (Q F : event → Prop) (err : exn) (m : M A) : Prop :=
  ∀ w, ∃ evs,
    trace (m w).2 = trace w ++ evs
    ∧ Forall Q evs
    ∧ (Exists F evs → (m w).1 = Raise err).

(** If one of the events the computation adds satisfies [F], the
    computation ends by raising [err] and all it has added satisfies
    [Q]. *)
Definition fatal {A} (Q F : event → Prop) (err : exn) (m : M A) : Prop :=
  ∀ w, ∃ evs,
    trace (m w).2 = trace w ++ evs
    ∧ (Exists F evs → (m w).1 = Raise err ∧ Forall Q evs).

(** The program a child process runs. *)
Definition program (ev : event) : option str :=
  match ev with
  | Exec argv _ _ _ => head argv
  | _ => None
  end.

(** The event starts one of the history collectors. *)
Definition history_exec (ev : event) : Prop :=
  ∃ name, program ev = Some name
          ∧ name ∈ [cp "waymore"; cp "katana"; cp "gau"].

(** The event is the liveness prober of the discovery stage (the only
    child whose output goes to a file) ending with a non-zero status. *)
Definition discovery_probe_failed (subs_file : str) (ev : event) : Prop :=
  ∃ stdin append status,
    ev = Exec [cp "httpx"; cp "-silent"] stdin (Some (subs_file, append))
              status
    ∧ status ≠ 0%Z.

Definition is_sleep (ev : event) : Prop := ∃ ms, ev = Sleep ms.

(** A computation that adds nothing to the trace. *)
Definition silent {A} (m : M A) : Prop :=
  ∀ w, trace (m w).2 = trace w.

(** The lines [read_lines] finds at a path of a file system without
    failing. *)
Definition lines_of (f : gmap str node) (path : str) : list str :=
  match f !! path with
  | Some (File content) => stripped (iter_lines content)
  | _ => []
  end.

(** What the echo of the command line adds to the trace in verbose
    mode. *)
Definition cmd_echo (verbose : bool) (args : list str) : list event :=
  if verbose
  then [Stderr (cp "[cmd] " ++ join (cp " ") args ++ [LF])]
  else [].

(** What the echo of the child's stderr adds to the trace in verbose
    mode. *)
Definition stderr_echo (verbose : bool) (proc : child) : list event :=
  if verbose && truthy (child_stderr proc)
  then [Stderr (child_stderr proc)]
  else [].

(** The batching sites as the words "the entire input is streamed as a
    single batch and no inter-batch delay is inserted" describe them:
    one child process fed the whole input, no sleep. *)
Section unbatched.
Variable E : env.

Definition subfinder_to_httpx_unbatched (domain subs_out : str)
    (verbose : bool) : M (nat * nat) :=
  proc ← run_command E
           [cp "subfinder"; cp "-d"; domain; cp "-all"; cp "-silent"]
           None None false verbose;
  if negb (returncode proc =? 0)%Z
  then raise (RuntimeError "subfinder failed")
  else
    let subdomains := stripped (stdout_lines proc) in
    if negb (truthy subdomains)
    then write_lines subs_out [] ;; mret (0, 0)
    else
      e ← path_exists subs_out;
      when e (remove subs_out) ;;
      proc2 ← run_command E [cp "httpx"; cp "-silent"]
                (Some (batch_input subdomains)) (Some subs_out) false
                verbose;
      if negb (returncode proc2 =? 0)%Z
      then raise (RuntimeError "httpx failed while probing subdomains")
      else
        live ← read_lines subs_out;
        mret (length subdomains, length live).

Definition run_gau_unbatched (subs_file out_file : str) (verbose : bool)
    : M nat :=
  subs ← read_lines subs_file;
  if negb (truthy subs)
  then write_lines out_file [] ;; mret 0
  else
    e ← path_exists out_file;
    when e (remove out_file) ;;
    proc ← run_command E [cp "gau"; cp "--subs"; cp "-o"; out_file]
             (Some (batch_input subs)) None false verbose;
    if negb (returncode proc =? 0)%Z
    then raise (RuntimeError "gau failed")
    else
      lines ← read_lines out_file;
      mret (length lines).

Definition filter_with_gf_uro_httpx_unbatched (merged_in final_out : str)
    (verbose : bool) : M (nat * nat * nat * nat) :=
  lines ← read_lines merged_in;
  if negb (truthy lines)
  then write_lines final_out [] ;; mret (0, 0, 0, 0)
  else
    let lines := sorted_set lines in
    proc_gf ← run_command E [cp "gf"; cp "xss"]
                (Some (batch_input lines)) None false verbose;
    if negb (returncode proc_gf =? 0)%Z
    then raise (RuntimeError "gf xss failed")
    else
      let gf_lines := stdout_lines proc_gf in
      let filtered := structural_filter gf_lines in
      if negb (truthy filtered)
      then write_lines final_out [] ;; mret (length gf_lines, 0, 0, 0)
      else
        e ← path_exists final_out;
        when e (remove final_out) ;;
        proc_uro ← run_command E [cp "uro"] (Some (batch_input filtered))
                     None false verbose;
        if negb (returncode proc_uro =? 0)%Z
        then raise (RuntimeError "uro failed")
        else
          let normalized_all :=
            unique_preserve_order (nonblank (stdout_lines proc_uro)) in
          if negb (truthy normalized_all)
          then write_lines final_out [] ;;
               mret (length gf_lines, length filtered, 0, 0)
          else
            proc_httpx ← run_command E [cp "httpx"; cp "-silent"]
                           (Some (batch_input normalized_all)) None false
                           verbose;
            if negb (returncode proc_httpx =? 0)%Z
            then raise (RuntimeError "httpx failed while probing URLs")
            else
              let probed_all :=
                unique_preserve_order
                  (nonblank (stdout_lines proc_httpx)) in
              write_lines final_out probed_all ;;
              mret (length gf_lines, length filtered,
                    length normalized_all, length probed_all).
End unbatched.

(** ** Scenarios *)

(** An environment in which every program named by [installed] resolves,
    and a child process answers by its program name and piped input
    alone, writes nothing to stderr and leaves the files alone. *)
Definition scripted (installed : str → bool)
    (behave : str → option str → Z * str) : env :=
  {| which := λ tool,
       if installed tool then Some (cp "/usr/bin/" ++ tool) else None;
     spawn := λ _ f argv stdin,
       let '(status, text) := behave (default [] (head argv)) stdin in
       Child status text [] f;
     HAS_COLOR := false |}.

(** A child answers what [table] lists for its program name; a program
    that is not listed succeeds and echoes its input. *)
Definition answers (table : list (str * (Z * str)))
    : str → option str → Z * str :=
  λ name stdin,
    match List.find (λ row, bool_decide (row.1 = name)) table with
    | Some row => row.2
    | None => (0%Z, default [] stdin)
    end.

Definition everything_installed : str → bool := λ _, true.

Definition empty_world : world := World ∅ [].

Definition is_stderr (ev : event) : Prop := ∃ text, ev = Stderr text.

(** Where [run_command] sends the standard output of the child. *)
Definition redirect_of (output_file : option str) (append : bool)
    : option (str * bool) :=
  match output_file with
  | Some path => Some (path, append)
  | None => None
  end.

(** One subdomain is found and the prober ends with status 1. *)
Definition probe_down : env :=
  scripted everything_installed
    (answers [(cp "subfinder", (0%Z, cp "a.test" ++ [LF]));
              (cp "httpx", (1%Z, []))]).

(** The enumerator ends with status 1 and prints nothing. *)
Definition enumerator_down : env :=
  scripted everything_installed (answers [(cp "subfinder", (1%Z, []))]).

(** The enumerator succeeds and prints blank lines only. *)
Definition nothing_found : env :=
  scripted everything_installed
    (answers [(cp "subfinder", (0%Z, [LF; 32%N; LF]))]).

(** Neither [katana] nor [gau] is installed. *)
Definition crawlers_missing : env :=
  scripted (λ tool, negb (bool_decide (tool ∈ [cp "katana"; cp "gau"])))
           (answers []).

Definition example_args (mode : Mode) (rate_limit : Z) : Namespace :=
  {| arg_domain := cp "example.com"; arg_mode := mode;
     arg_rate_limit := rate_limit; arg_verbose := false |}.

(** Two subdomains are found; every other child echoes its input. *)
Definition two_found : env :=
  scripted everything_installed
    (answers [(cp "subfinder",
               (0%Z, cp "a.test" ++ [LF] ++ cp "b.test" ++ [LF]))]).

(** ** Words used by the further properties *)

(** The event is a child process that ended with a non-zero status. *)
Definition failed_child (ev : event) : Prop :=
  ∃ argv stdin redirect status,
    ev = Exec argv stdin redirect status ∧ status ≠ 0%Z.

(** The message of the [RuntimeError] the stages raise for a child, by
    its program (and, for [httpx], by where its output goes). *)
Definition failure_message (ev : event) : string :=
  match ev with
  | Exec argv _ redirect _ =>
      let name := default [] (head argv) in
      if bool_decide (name = cp "subfinder") then "subfinder failed"
      else if bool_decide (name = cp "httpx") then
        match redirect with
        | Some _ => "httpx failed while probing subdomains"
        | None => "httpx failed while probing URLs"
        end
      else if bool_decide (name = cp "waymore") then "waymore failed"
      else if bool_decide (name = cp "katana") then "katana failed"
      else if bool_decide (name = cp "gau") then "gau failed"
      else if bool_decide (name = cp "gf") then "gf xss failed"
      else if bool_decide (name = cp "uro") then "uro failed"
      else if bool_decide (name = cp "knoxnl") then "knoxnl failed"
      else EmptyString
  | _ => EmptyString
  end%string.

(** How a computation that stops at the first failed child ends, given
    the events it has added: if it returns, no child has failed; if it
    raises, either no child has failed or the last child run is the only
    one that failed and the exception is the [RuntimeError] for that
    child. *)
Definition stopped {A} (r : outcome A) (evs : list event) : Prop :=
  match r with
  | Ok _ => Forall (λ ev, ¬ failed_child ev) evs
  | Raise e =>
      Forall (λ ev, ¬ failed_child ev) evs
      ∨ ∃ pre ev post,
          evs = pre ++ ev :: post
          ∧ Forall (λ ev, ¬ failed_child ev) pre
          ∧ failed_child ev
          ∧ Forall is_stderr post
          ∧ e = RuntimeError (failure_message ev)
  end.

Definition fail_stop {A} (m : M A) : Prop :=
  ∀ w, ∃ evs, trace (m w).2 = trace w ++ evs ∧ stopped (m w).1 evs.

(** The position of a child in the pipeline: 0 the enumerator, 1 the
    prober of discovery (its output goes to a file), 2 to 4 the history
    collectors, 5 the pattern matcher, 6 the normaliser, 7 the prober of
    the URLs, 8 the scanner. *)
Definition stage_of (ev : event) : option nat :=
  match ev with
  | Exec argv _ redirect _ =>
      let name := default [] (head argv) in
      if bool_decide (name = cp "subfinder") then Some 0
      else if bool_decide (name = cp "httpx") then
        match redirect with Some _ => Some 1 | None => Some 7 end
      else if bool_decide (name = cp "waymore") then Some 2
      else if bool_decide (name = cp "katana") then Some 3
      else if bool_decide (name = cp "gau") then Some 4
      else if bool_decide (name = cp "gf") then Some 5
      else if bool_decide (name = cp "uro") then Some 6
      else if bool_decide (name = cp "knoxnl") then Some 8
      else None
  | _ => None
  end.

(** The children a computation starts all have a place in the pipeline,
    between [lo] and [hi], and start in the order of the pipeline. *)
Definition staged {A} (lo hi : nat) (m : M A) : Prop :=
  ∀ w, ∃ evs,
    trace (m w).2 = trace w ++ evs
    ∧ Forall (λ ev, is_Some (program ev) → is_Some (stage_of ev)) evs
    ∧ Forall (λ k, lo ≤ k ≤ hi) (omap stage_of evs)
    ∧ StronglySorted le (omap stage_of evs).

(** Whenever the computation returns, [Q] holds of what it returns and
    of the world it leaves. *)
Definition ensures {A} (Q : A → world → Prop) (m : M A) : Prop :=
  ∀ w a w', m w = (Ok a, w') → Q a w'.

(** The history collector [waymore] ends with status 3. *)
Definition waymore_down : env :=
  scripted everything_installed
    (answers [(cp "subfinder", (0%Z, cp "a.test" ++ [LF]));
              (cp "waymore", (3%Z, []))]).

(* ================================================================== *)
(** * Part II: properties *)
(* ================================================================== *)

Section unique_preserve_order_facts.
Context {A : Type} `{Countable A}.
Implicit Types (l : list A) (seen : gset A).

Lemma loop_fresh_of l : ∀ seen result,
  unique_preserve_order_loop l seen result = result ++ fresh_of seen l.
Proof.
  induction l as [|x t IH]; intros seen result; simpl.
  - by rewrite app_nil_r.
  - case_decide; rewrite IH; [done|]. by rewrite <- app_assoc.
Qed.

Lemma upo_fresh_of l : unique_preserve_order l = fresh_of ∅ l.
Proof. unfold unique_preserve_order. by rewrite loop_fresh_of. Qed.

Lemma fresh_of_elem l : ∀ seen x,
  x ∈ fresh_of seen l ↔ x ∈ l ∧ x ∉ seen.
Proof.
  induction l as [|y t IH]; intros seen x; simpl.
  - set_solver.
  - case_decide.
    + rewrite IH. set_solver.
    + rewrite elem_of_cons, IH. destruct (decide (x = y)); set_solver.
Qed.

Lemma fresh_of_NoDup l : ∀ seen, NoDup (fresh_of seen l).
Proof.
  induction l as [|y t IH]; intros seen; simpl.
  - constructor.
  - case_decide; [apply IH|].
    constructor; [|apply IH]. rewrite fresh_of_elem. set_solver.
Qed.

Lemma fresh_of_sublist l : ∀ seen, sublist (fresh_of seen l) l.
Proof.
  induction l as [|y t IH]; intros seen; simpl.
  - constructor.
  - case_decide; [apply sublist_cons | apply sublist_skip]; apply IH.
Qed.

Lemma fresh_of_fixed l : ∀ seen,
  NoDup l → (∀ x, x ∈ l → x ∉ seen) → fresh_of seen l = l.
Proof.
  induction l as [|y t IH]; intros seen Hnd Hdis; simpl; [done|].
  inversion_clear Hnd as [|? ? Hy Ht].
  case_decide as Hin.
  - exfalso. apply (Hdis y); [left | done].
  - f_equal. apply IH; [done|].
    intros x Hx. specialize (Hdis x (list_elem_of_further _ _ _ Hx)).
    set_solver.
Qed.

Lemma fresh_of_app l1 l2 : ∀ seen,
  fresh_of seen (l1 ++ l2)
  = fresh_of seen l1 ++ fresh_of (list_to_set l1 ∪ seen) l2.
Proof.
  induction l1 as [|y t IH]; intros seen; simpl.
  - by rewrite (left_id_L ∅ (∪)).
  - case_decide as Hin.
    + rewrite IH. do 2 f_equal. set_solver.
    + rewrite IH. simpl. do 3 f_equal. set_solver.
Qed.

Lemma upo_snoc l x :
  unique_preserve_order (l ++ [x])
  = if decide (x ∈ l) then unique_preserve_order l
    else unique_preserve_order l ++ [x].
Proof.
  rewrite !upo_fresh_of, fresh_of_app. simpl.
  rewrite (right_id_L ∅ (∪)).
  destruct (decide (x ∈ l)) as [Hin|Hin]; case_decide as Hs.
  - by rewrite app_nil_r.
  - exfalso. apply Hs. by apply elem_of_list_to_set.
  - exfalso. apply Hin. by apply elem_of_list_to_set in Hs.
  - done.
Qed.
End unique_preserve_order_facts.

Lemma Forall2_weaken_elem {B C} (P Q : B → C → Prop) l k :
  Forall2 P l k → (∀ x y, x ∈ l → P x y → Q x y) → Forall2 Q l k.
Proof.
  induction 1 as [|x y l k HP _ IH]; intros HPQ; constructor.
  - apply HPQ; [left | done].
  - apply IH. intros x' y' Hx'. apply HPQ. by right.
Qed.

Section first_occurrences.
Context {A : Type} `{Countable A}.
Implicit Types (l : list A).

Lemma first_occurrence_lt l i : first_occurrence l i → i < length l.
Proof. intros (x & Hx & _). by eapply lookup_lt_Some. Qed.

Lemma first_occurrence_snoc_old l x i :
  i < length l →
  first_occurrence (l ++ [x]) i ↔ first_occurrence l i.
Proof.
  intros Hi. unfold first_occurrence.
  rewrite lookup_app_l by done.
  split; intros (y & Hy & Hfirst); exists y; (split; [done|]).
  - intros j Hj. specialize (Hfirst j Hj).
    by rewrite lookup_app_l in Hfirst by lia.
  - intros j Hj. rewrite lookup_app_l by lia. by apply Hfirst.
Qed.

Lemma first_occurrence_snoc_new l x :
  first_occurrence (l ++ [x]) (length l) ↔ x ∉ l.
Proof.
  unfold first_occurrence. rewrite list_lookup_middle by done. split.
  - intros (y & [= <-] & Hfirst) (j & Hj)%list_elem_of_lookup.
    apply (Hfirst j); [by eapply lookup_lt_Some|].
    rewrite lookup_app_l; [done | by eapply lookup_lt_Some].
  - intros Hx. exists x. split; [done|]. intros j Hj Hl.
    rewrite lookup_app_l in Hl by done.
    apply Hx, list_elem_of_lookup. eauto.
Qed.

(** The output lists, in increasing order of position, exactly the
    positions of the input that hold a first occurrence. *)
Lemma upo_positions l :
  ∃ idx : list nat,
    StronglySorted lt idx
    ∧ (∀ i, i ∈ idx ↔ first_occurrence l i)
    ∧ Forall2 (λ i x, l !! i = Some x) idx (unique_preserve_order l).
Proof.
  induction l as [|x l (idx & Hsorted & Hidx & Hval)] using rev_ind.
  - exists []. split_and!; [constructor| |constructor].
    intros i. split; [by intros ?%elem_of_nil|].
    intros ?%first_occurrence_lt. simpl in *. lia.
  - assert (Hbound : ∀ i, i ∈ idx → i < length l).
    { intros i Hi. by apply first_occurrence_lt, Hidx. }
    assert (Hval' : Forall2 (λ i y, (l ++ [x]) !! i = Some y) idx
                            (unique_preserve_order l)).
    { eapply Forall2_weaken_elem; [exact Hval|]. simpl.
      intros i y Hi ?. rewrite lookup_app_l; [done | by apply Hbound]. }
    rewrite upo_snoc. destruct (decide (x ∈ l)) as [Hin|Hnew].
    + exists idx. split_and!; [done| |done].
      intros i. destruct (decide (i < length l)) as [Hlt|Hge].
      * by rewrite first_occurrence_snoc_old.
      * split; [intros ?%Hbound; lia|].
        intros Hi. pose proof (first_occurrence_lt _ _ Hi) as Hlen.
        rewrite length_app in Hlen. simpl in Hlen.
        assert (i = length l) as -> by lia.
        by apply first_occurrence_snoc_new in Hi.
    + exists (idx ++ [length l]). split_and!.
      * apply StronglySorted_app_2; [|done|repeat constructor].
        intros i j Hi ->%list_elem_of_singleton. by apply Hbound.
      * intros i. rewrite elem_of_app, list_elem_of_singleton.
        destruct (decide (i < length l)) as [Hlt|Hge].
        -- rewrite first_occurrence_snoc_old by done.
           rewrite Hidx. intuition lia.
        -- split.
           ++ intros [?%Hbound| ->]; [lia|].
              by apply first_occurrence_snoc_new.
           ++ intros Hi. right.
              pose proof (first_occurrence_lt _ _ Hi) as Hlen.
              rewrite length_app in Hlen. simpl in Hlen. lia.
      * apply Forall2_app; [done|]. repeat constructor.
        by rewrite list_lookup_middle.
Qed.

(** C3. [unique_preserve_order] is idempotent; its output is a
    subsequence of the input, has no repetition, holds the same
    elements as the input, and is made of the elements found at the
    first-occurrence positions of the input, in increasing order of
    position. *)
Theorem unique_preserve_order_first_occurrences l :
  unique_preserve_order (unique_preserve_order l)
    = unique_preserve_order l
  ∧ sublist (unique_preserve_order l) l
  ∧ NoDup (unique_preserve_order l)
  ∧ (∀ x, x ∈ unique_preserve_order l ↔ x ∈ l)
  ∧ ∃ idx : list nat,
      StronglySorted lt idx
      ∧ (∀ i, i ∈ idx ↔ first_occurrence l i)
      ∧ Forall2 (λ i x, l !! i = Some x) idx (unique_preserve_order l).
Proof.
  split_and!.
  - rewrite !upo_fresh_of. apply fresh_of_fixed.
    + apply fresh_of_NoDup.
    + set_solver.
  - rewrite upo_fresh_of. apply fresh_of_sublist.
  - rewrite upo_fresh_of. apply fresh_of_NoDup.
  - intros x. rewrite upo_fresh_of, fresh_of_elem. set_solver.
  - apply upo_positions.
Qed.
End first_occurrences.


Section chunked_facts.
Context {A : Type}.
Implicit Types (seq : list A).

Lemma range_from_covers seq n : 0 < n → ∀ fuel i,
  length seq - i ≤ fuel →
  concat (map (λ i, slice seq i (i + n)) (range_from fuel i (length seq) n))
  = drop i seq.
Proof.
  intros Hn. induction fuel as [|fuel IH]; intros i Hfuel; simpl.
  - symmetry. apply drop_ge. lia.
  - destruct (Nat.ltb_spec i (length seq)) as [Hlt|Hge]; simpl.
    + rewrite IH by lia. unfold slice.
      replace (i + n - i) with n by lia.
      rewrite <- (drop_drop seq n i). apply take_drop.
    + symmetry. by apply drop_ge.
Qed.

Lemma range_from_chunk_lengths seq n : 0 < n → ∀ fuel i,
  Forall (λ chunk : list A, 0 < length chunk ≤ n)
         (map (λ i, slice seq i (i + n)) (range_from fuel i (length seq) n)).
Proof.
  intros Hn. induction fuel as [|fuel IH]; intros i; simpl; [constructor|].
  destruct (Nat.ltb_spec i (length seq)) as [Hlt|Hge]; simpl;
    constructor; [|apply IH].
  unfold slice. rewrite length_take, length_drop. lia.
Qed.

(** C4. For a chunk size of at least one, the chunks of [chunked] put end
    to end are the input again; for a size of zero or less there is one
    chunk, the whole input. *)
Theorem chunked_reassembles seq (size : Z) :
  ((1 ≤ size)%Z → concat (chunked seq size) = seq)
  ∧ ((size ≤ 0)%Z → chunked seq size = [seq]).
Proof.
  unfold chunked. split; intros Hsize.
  - destruct (Z.leb_spec size 0) as [?|_]; [lia|]. simpl.
    unfold range0. rewrite range_from_covers by lia. done.
  - destruct (Z.leb_spec size 0) as [_|?]; [done | lia].
Qed.

(** Every chunk of a positive size is non-empty and no longer than the
    size. *)
Lemma chunked_lengths seq (size : Z) :
  (1 ≤ size)%Z →
  Forall (λ chunk : list A, 0 < length chunk ≤ Z.to_nat size)
         (chunked seq size).
Proof.
  intros Hsize. unfold chunked.
  destruct (Z.leb_spec size 0) as [?|_]; [lia|]. simpl.
  apply range_from_chunk_lengths. lia.
Qed.
End chunked_facts.

Lemma chunked_reassembles_witness :
  concat (chunked [1; 2; 3; 4; 5] 2) = [1; 2; 3; 4; 5]
  ∧ chunked [1; 2; 3] (-4) = [[1; 2; 3]].
Proof.
  split.
  - apply (proj1 (chunked_reassembles [1; 2; 3; 4; 5] 2)). lia.
  - apply (proj2 (chunked_reassembles [1; 2; 3] (-4))). lia.
Defined.

Example chunked_by_two :
  chunked [1; 2; 3; 4; 5] 2 = [[1; 2]; [3; 4]; [5]].
Proof. reflexivity. Qed.


(** ** The extension filter *)

Example search_js : EXCLUDE_EXT_REGEX_search (cp "https://x.test/app.js") = true.
Proof. reflexivity. Qed.

Example search_JS_query :
  EXCLUDE_EXT_REGEX_search (cp "https://x.test/APP.Js?x=1") = true.
Proof. reflexivity. Qed.

Example search_woff2 :
  EXCLUDE_EXT_REGEX_search (cp "https://x.test/font.woff2") = true.
Proof. reflexivity. Qed.

Example search_php :
  EXCLUDE_EXT_REGEX_search (cp "https://x.test/index.php?id=1") = false.
Proof. reflexivity. Qed.

Example search_jsx :
  EXCLUDE_EXT_REGEX_search (cp "https://x.test/app.jsx") = false.
Proof. reflexivity. Qed.

Example search_kelvin :
  EXCLUDE_EXT_REGEX_search (cp "a.p" ++ [8490%N] ++ cp "g") = true.
Proof. reflexivity. Qed.

Lemma match_literals_Some pat : ∀ s rest,
  match_literals pat s = Some rest
  ↔ ∃ x, s = x ++ rest
         ∧ Forall2 (λ p c, literal_ignorecase p c = true) pat x.
Proof.
  induction pat as [|p pat IH]; intros s rest; simpl.
  - split.
    + intros [= ->]. exists []. split; [done | constructor].
    + intros (x & -> & Hx). by inversion Hx.
  - destruct s as [|c s].
    + split; [done|]. intros (x & Hs & Hx). inversion Hx; subst.
      discriminate.
    + destruct (literal_ignorecase p c) eqn:Hpc.
      * rewrite IH. split.
        -- intros (x & -> & Hx). exists (c :: x). split; [done|].
           by constructor.
        -- intros (x & Hs & Hx). inversion Hx as [|? c' ? x' Hc Hx']; subst.
           simplify_eq/=. eauto.
      * split; [done|]. intros (x & Hs & Hx).
        inversion Hx as [|? c' ? x' Hc Hx']; subst. simplify_eq/=.
        congruence.
Qed.

Lemma spellsb_from_spec pat : ∀ x,
  spellsb_from pat x = true
  ↔ Forall2 (λ p c, literal_ignorecase p c = true) pat x.
Proof.
  induction pat as [|p pat IH]; intros [|c x]; simpl.
  - split; [constructor | done].
  - split; [done | inversion 1].
  - split; [done | inversion 1].
  - rewrite andb_true_iff, IH. split.
    + intros [? ?]. by constructor.
    + inversion 1; by subst.
Qed.

Lemma listed_spec x : listed x = true ↔ ∃ e, e ∈ EXCLUDE_EXTS ∧ spells e x.
Proof.
  unfold listed, spells. rewrite existsb_exists.
  setoid_rewrite spellsb_from_spec. setoid_rewrite <- list_elem_of_In.
  done.
Qed.

Lemma match_tail_true rest :
  match_tail rest = true
  ↔ rest = [] ∨ (∃ query, rest = QMARK :: query) ∨ rest = [LF].
Proof.
  destruct rest as [|c t]; simpl.
  - split; [by left | done].
  - rewrite orb_true_iff, andb_true_iff, N.eqb_eq, N.eqb_eq. split.
    + intros [->| [-> Ht]]; [right; left; eauto|].
      right; right. by destruct t.
    + intros [?|[(q & [= -> ->])|[= -> ->]]]; [done|by left|by right].
Qed.

Lemma match_here_true s :
  match_here s = true
  ↔ ∃ e x rest, e ∈ EXCLUDE_EXTS ∧ spells e x
                ∧ s = DOT :: x ++ rest ∧ match_tail rest = true.
Proof.
  destruct s as [|c t]; unfold match_here.
  - split; [done|]. by intros (e & x & rest & _ & _ & ? & _).
  - rewrite andb_true_iff, N.eqb_eq, existsb_exists. split.
    + intros (-> & e & He & Hm).
      destruct (match_literals (cp e) t) as [rest|] eqn:Hlit; [|done].
      apply match_literals_Some in Hlit as (x & -> & Hx).
      exists e, x, rest. by rewrite list_elem_of_In.
    + intros (e & x & rest & He & Hx & [= -> ->] & Htail).
      split; [done|]. exists e. split; [by apply list_elem_of_In|].
      assert (match_literals (cp e) (x ++ rest) = Some rest) as ->; [|done].
      apply match_literals_Some. eauto.
Qed.

Lemma search_true url :
  EXCLUDE_EXT_REGEX_search url = true
  ↔ ∃ prefix s, url = prefix ++ s ∧ match_here s = true.
Proof.
  induction url as [|c t IH].
  - simpl. split; [done|]. intros (p & s & Hnil & Hs).
    symmetry in Hnil. apply app_eq_nil in Hnil as [_ ->]. done.
  - cbn [EXCLUDE_EXT_REGEX_search]. rewrite orb_true_iff, IH. split.
    + intros [Hhere|(p & s & -> & Hs)].
      * by exists [], (c :: t).
      * by exists (c :: p), s.
    + intros ([|c' p] & s & Heq & Hs); simplify_eq/=.
      * by left.
      * right. eauto.
Qed.

Lemma literal_ignorecase_lower c :
  literal_ignorecase (ascii_lower c) c = true.
Proof.
  unfold literal_ignorecase, ascii_lower.
  destruct (N.leb_spec 65 c), (N.leb_spec c 90); simpl.
  - destruct (N.leb_spec 97 (c + 32)), (N.leb_spec (c + 32) 122);
      simpl; try lia.
    replace (c + 32 - 32)%N with c by lia.
    by rewrite N.eqb_refl, orb_true_r.
  - destruct (N.leb_spec 97 c), (N.leb_spec c 122); simpl;
      by rewrite N.eqb_refl.
  - destruct (N.leb_spec 97 c), (N.leb_spec c 122); simpl;
      by rewrite N.eqb_refl.
  - lia.
Qed.

Lemma spells_any_case e x : map ascii_lower x = cp e → spells e x.
Proof.
  unfold spells. intros <-. induction x as [|c x IH]; simpl.
  - constructor.
  - constructor; [apply literal_ignorecase_lower | done].
Qed.

Lemma literal_ignorecase_dot p c :
  literal_ignorecase p c = true → c = DOT → p = DOT.
Proof.
  unfold literal_ignorecase, DOT. intros Hm ->.
  destruct ((97 <=? p) && (p <=? 122))%N eqn:Hr.
  - apply andb_true_iff in Hr as [H1%N.leb_le H2%N.leb_le].
    rewrite !orb_true_iff, !andb_true_iff, !N.eqb_eq in Hm.
    destruct Hm as [[[[?|?]|[_ ?]]|[_ ?]]|[_ ?]]; try done; lia.
  - apply N.eqb_eq in Hm. done.
Qed.

Lemma EXCLUDE_EXTS_no_dot e :
  e ∈ EXCLUDE_EXTS → contains_char DOT (cp e) = false.
Proof.
  intros He.
  assert (Hall : forallb (λ e, negb (contains_char DOT (cp e)))
                         EXCLUDE_EXTS = true) by (vm_compute; done).
  rewrite forallb_forall in Hall.
  apply list_elem_of_In, Hall in He. by destruct (contains_char _ _).
Qed.

Lemma contains_char_false c s :
  contains_char c s = false ↔ c ∉ s.
Proof.
  unfold contains_char. induction s as [|d s IH]; simpl.
  - split; [intros _ ?%elem_of_nil; done | done].
  - rewrite orb_false_iff, IH, not_elem_of_cons, N.eqb_neq. done.
Qed.


Lemma spells_no_dot e x : e ∈ EXCLUDE_EXTS → spells e x → DOT ∉ x.
Proof.
  intros He Hx. pose proof (EXCLUDE_EXTS_no_dot e He) as Hdot.
  apply contains_char_false in Hdot. unfold spells in Hx.
  induction Hx as [|p c pat x Hpc _ IH]; [by intros ?%elem_of_nil|].
  apply not_elem_of_cons in Hdot as [Hp Hpat].
  apply not_elem_of_cons. split; [|by apply IH].
  intros Hc. apply Hp. symmetry. by eapply literal_ignorecase_dot.
Qed.

Lemma after_last_dot_None s : after_last_dot s = None ↔ DOT ∉ s.
Proof.
  induction s as [|c t IH]; simpl.
  - split; [intros _ ?%elem_of_nil; done | done].
  - rewrite not_elem_of_cons. destruct (after_last_dot t) as [x|].
    + split; [done|]. intros [_ Ht]. by apply IH in Ht.
    + destruct (N.eqb_spec c DOT) as [->|Hc].
      * split; [done | intros [? _]; done].
      * split; [|done]. intros _. split; [congruence | by apply IH].
Qed.

Lemma after_last_dot_suffix prefix x :
  DOT ∉ x → after_last_dot (prefix ++ DOT :: x) = Some x.
Proof.
  intros Hx. apply after_last_dot_None in Hx.
  induction prefix as [|c p IH]; simpl.
  - by rewrite Hx.
  - by rewrite IH.
Qed.

(** The pattern matches exactly the strings that hold a listed extension
    followed by the end of the string or by a question mark (or by a last
    line feed). *)
Lemma search_ends_in_listed url :
  EXCLUDE_EXT_REGEX_search url = true
  ↔ ends_in_listed_extension url
    ∨ ∃ prefix e x, e ∈ EXCLUDE_EXTS ∧ spells e x
                    ∧ url = prefix ++ DOT :: x ++ [LF].
Proof.
  rewrite search_true. unfold ends_in_listed_extension. split.
  - intros (prefix & s & -> & Hs).
    apply match_here_true in Hs as (e & x & rest & He & Hx & -> & Htail).
    apply match_tail_true in Htail as [->|[(q & ->)| ->]].
    + left. exists prefix, e, x, []. eauto.
    + left. exists prefix, e, x, (QMARK :: q). eauto 10.
    + right. eauto 10.
  - intros [(prefix & e & x & rest & He & Hx & -> & Hrest)
           |(prefix & e & x & He & Hx & ->)].
    + exists prefix, (DOT :: x ++ rest). split; [done|].
      apply match_here_true. exists e, x, rest. split_and!; try done.
      apply match_tail_true. naive_solver.
    + exists prefix, (DOT :: x ++ [LF]). split; [done|].
      apply match_here_true. exists e, x, [LF]. split_and!; try done.
Qed.

(** C1, as amended.  Every URL that ends in a listed extension, in any
    letter case, alone or followed by [?query], is excluded.  Conversely a
    line (no final line feed) is excluded only if it reads
    [prefix.ext] or [prefix.ext?rest] for a listed extension; so a line
    without any [?] whose text after the last dot is not a listed
    extension, or that has no dot at all, is not excluded. *)
Theorem EXCLUDE_EXT_REGEX_excludes_listed (url : str) :
  (∀ prefix e x query,
      e ∈ EXCLUDE_EXTS → map ascii_lower x = cp e →
      (url = prefix ++ DOT :: x ∨ url = prefix ++ DOT :: x ++ QMARK :: query) →
      EXCLUDE_EXT_REGEX_search url = true)
  ∧ (ends_in_listed_extension url → EXCLUDE_EXT_REGEX_search url = true)
  ∧ (last url ≠ Some LF →
     EXCLUDE_EXT_REGEX_search url = true → ends_in_listed_extension url)
  ∧ (last url ≠ Some LF →
     contains_char QMARK url = false →
     match after_last_dot url with
     | Some x => listed x = false
     | None => True
     end →
     EXCLUDE_EXT_REGEX_search url = false).
Proof.
  assert (Hconv : last url ≠ Some LF →
                  EXCLUDE_EXT_REGEX_search url = true →
                  ends_in_listed_extension url).
  { intros Hlast [?|(prefix & e & x & _ & _ & ->)]%search_ends_in_listed;
      [done|].
    exfalso. apply Hlast.
    replace (prefix ++ DOT :: x ++ [LF]) with ((prefix ++ DOT :: x) ++ [LF])
      by (by rewrite <- app_assoc).
    apply last_snoc. }
  split_and!; [| |done|].
  - intros prefix e x query He Hx Hurl.
    apply search_ends_in_listed. left.
    destruct Hurl as [->| ->].
    + exists prefix, e, x, []. rewrite app_nil_r.
      split_and!; eauto using spells_any_case.
    + exists prefix, e, x, (QMARK :: query).
      split_and!; eauto using spells_any_case.
  - intros Hurl. apply search_ends_in_listed. by left.
  - intros Hlast Hq Hext.
    apply not_true_is_false. intros Hs.
    apply Hconv in Hs as (prefix & e & x & rest & He & Hx & -> & Hrest);
      [|done].
    apply contains_char_false in Hq.
    destruct Hrest as [->|(query & ->)].
    + rewrite app_nil_r in Hext.
      rewrite after_last_dot_suffix in Hext by eauto using spells_no_dot.
      assert (listed x = true) by (apply listed_spec; eauto).
      congruence.
    + apply Hq. set_solver.
Qed.

Lemma EXCLUDE_EXT_REGEX_excludes_listed_witness :
  EXCLUDE_EXT_REGEX_search (cp "https://x.test/Logo.PNG?size=2") = true
  ∧ ends_in_listed_extension (cp "https://x.test/Logo.PNG?size=2")
  ∧ EXCLUDE_EXT_REGEX_search (cp "https://x.test/index.php") = false.
Proof.
  pose proof (EXCLUDE_EXT_REGEX_excludes_listed
                (cp "https://x.test/Logo.PNG?size=2"))
    as (Hlisted & _ & Honly & _).
  pose proof (EXCLUDE_EXT_REGEX_excludes_listed
                (cp "https://x.test/index.php"))
    as (_ & _ & _ & Hunlisted).
  assert (Hpng : EXCLUDE_EXT_REGEX_search
                   (cp "https://x.test/Logo.PNG?size=2") = true).
  { apply (Hlisted (cp "https://x.test/Logo") "png"%string (cp "PNG")
                   (cp "size=2")).
    - apply list_elem_of_In. vm_compute. tauto.
    - reflexivity.
    - right. reflexivity. }
  split_and!.
  - exact Hpng.
  - apply Honly; [discriminate | exact Hpng].
  - apply Hunlisted; [discriminate | reflexivity | reflexivity].
Defined.

(** The second half of C1 as the spec words it fails: this URL ends in
    [.php], which is not listed (and so does its path, [/page.php]), yet
    the pattern matches at [.js?] inside the query string. *)
Lemma unlisted_extension_excluded :
  ends_in_extension (cp "php")
                    (cp "https://x.test/page.php?u=app.js?v=1.php")
  ∧ listed (cp "php") = false
  ∧ EXCLUDE_EXT_REGEX_search
      (cp "https://x.test/page.php?u=app.js?v=1.php") = true.
Proof.
  split_and!.
  - by exists (cp "https://x.test/page.php?u=app.js?v=1").
  - reflexivity.
  - reflexivity.
Qed.



(** ** Trimming and line splitting *)

Lemma lstrip_spec s :
  ∃ pre, s = pre ++ lstrip s
         ∧ Forall (λ c, isspace c = true) pre
         ∧ ∀ c, head (lstrip s) = Some c → isspace c = false.
Proof.
  induction s as [|c t (pre & Hs & Hpre & Hhead)]; simpl.
  - exists []. split_and!; [done | constructor | done].
  - destruct (isspace c) eqn:Hc.
    + exists (c :: pre). split_and!; [by rewrite Hs at 1 | by constructor | done].
    + exists []. split_and!; [done | constructor |].
      intros c' [= <-]. done.
Qed.

Lemma rstrip_spec s :
  ∃ post, s = rstrip s ++ post
          ∧ Forall (λ c, isspace c = true) post
          ∧ ∀ c, last (rstrip s) = Some c → isspace c = false.
Proof.
  unfold rstrip.
  destruct (lstrip_spec (reverse s)) as (pre & Hs & Hpre & Hhead).
  exists (reverse pre). split_and!.
  - rewrite <- reverse_app, <- Hs. by rewrite reverse_involutive.
  - by apply Forall_reverse.
  - intros c. rewrite last_reverse. apply Hhead.
Qed.

(** [strip] removes a run of white space at each end and stops at the
    first character, from either end, that is not white space. *)
Lemma strip_spec s :
  ∃ pre post,
    s = pre ++ strip s ++ post
    ∧ Forall (λ c, isspace c = true) pre
    ∧ Forall (λ c, isspace c = true) post
    ∧ (∀ c, head (strip s) = Some c → isspace c = false)
    ∧ (∀ c, last (strip s) = Some c → isspace c = false).
Proof.
  unfold strip.
  destruct (lstrip_spec s) as (pre & Hs & Hpre & Hhead).
  destruct (rstrip_spec (lstrip s)) as (post & Hl & Hpost & Hlast).
  exists pre, post. split_and!; try done.
  - by rewrite <- Hl.
  - intros c Hc. apply Hhead. rewrite Hl.
    destruct (rstrip (lstrip s)); [done|]. done.
Qed.

Lemma iter_lines_from_concat s : ∀ cur,
  concat (iter_lines_from cur s) = cur ++ s.
Proof.
  induction s as [|c t IH]; intros cur; simpl.
  - destruct cur; simpl; by rewrite ?app_nil_r.
  - destruct (c =? LF)%N; simpl; rewrite IH; by rewrite <- ?app_assoc.
Qed.

Lemma stripped_filter_map lines :
  stripped lines = List.filter truthy (map strip lines).
Proof.
  unfold stripped. induction lines as [|l t IH]; simpl; [done|].
  destruct (truthy (strip l)); simpl; by rewrite IH.
Qed.

Lemma truthy_nonempty {A} (l : list A) : truthy l = true ↔ l ≠ [].
Proof. destruct l; simpl; split; done. Qed.

(** ** Running computations *)

Lemma bind_run {A B} (m : M A) (f : A → M B) w :
  (m ≫= f) w
  = match m w with
    | (Ok a, w') => f a w'
    | (Raise e, w') => (Raise e, w')
    end.
Proof. reflexivity. Qed.

Lemma bind_Ok {A B} (m : M A) (f : A → M B) w a w' :
  m w = (Ok a, w') → (m ≫= f) w = f a w'.
Proof. intros Hm. by rewrite bind_run, Hm. Qed.

Lemma bind_Raise {A B} (m : M A) (f : A → M B) w e w' :
  m w = (Raise e, w') → (m ≫= f) w = (Raise e, w').
Proof. intros Hm. by rewrite bind_run, Hm. Qed.

Lemma world_eta w : World (fs w) (trace w) = w.
Proof. by destruct w. Qed.

Lemma read_lines_run path w :
  read_lines path w
  = match fs w !! path with
    | None => (Ok [], w)
    | Some (File content) => (Ok (stripped (iter_lines content)), w)
    | Some Dir => (Raise (OSError path), w)
    end.
Proof.
  unfold read_lines, path_exists, read_text, get_fs.
  rewrite !bind_run. simpl.
  destruct (fs w !! path) as [[content|]|] eqn:Hp; simpl;
    rewrite ?bind_run; simpl; by rewrite ?Hp.
Qed.

Lemma write_lines_run path lines w :
  write_lines path lines w
  = match fs w !! path with
    | Some Dir => (Raise (OSError path), w)
    | _ => (Ok tt, World (<[path := File (render_lines lines)]> (fs w))
                         (trace w))
    end.
Proof.
  unfold write_lines, open_for_output, get_fs, put_fs.
  rewrite !bind_run. simpl.
  destruct (fs w !! path) as [[content|]|] eqn:Hp; simpl;
    rewrite ?bind_run; simpl; by rewrite ?insert_insert_eq.
Qed.

(** C6. [read_lines] answers the empty list for a path that names
    nothing, without raising and without touching anything.  For a file
    it answers, in the order of the file, the lines trimmed, those that
    trimming leaves empty being dropped; the lines are the pieces the
    text falls into at its line ends. *)
Theorem read_lines_trimmed_nonempty (path : str) (w : world) :
  (fs w !! path = None → read_lines path w = (Ok [], w))
  ∧ (∀ content, fs w !! path = Some (File content) →
       ∃ lines,
         read_lines path w = (Ok lines, w)
         ∧ lines = List.filter truthy (map strip (iter_lines content))
         ∧ concat (iter_lines content) = universal_newlines content
         ∧ Forall (λ line,
                     line ≠ []
                     ∧ (∀ c, head line = Some c → isspace c = false)
                     ∧ (∀ c, last line = Some c → isspace c = false))
                  lines).
Proof.
  split.
  - intros Hp. by rewrite read_lines_run, Hp.
  - intros content Hp. exists (stripped (iter_lines content)).
    split_and!.
    + by rewrite read_lines_run, Hp.
    + apply stripped_filter_map.
    + unfold iter_lines. by rewrite iter_lines_from_concat.
    + rewrite stripped_filter_map. apply Forall_forall. intros line.
      rewrite list_elem_of_In, filter_In, in_map_iff.
      intros [(raw & <- & _) Hne].
      destruct (strip_spec raw) as (_ & _ & _ & _ & _ & Hhead & Hlast).
      split; [by apply truthy_nonempty | done].
Qed.

Lemma read_lines_trimmed_nonempty_witness :
  read_lines (cp "missing.txt") empty_world = (Ok [], empty_world)
  ∧ ∃ lines,
      read_lines (cp "subs.txt")
        (World {[ cp "subs.txt" := File (cp "  a.test " ++ [CR; LF; 9%N; LF]
                                         ++ cp "b.test") ]} [])
      = (Ok lines,
         World {[ cp "subs.txt" := File (cp "  a.test " ++ [CR; LF; 9%N; LF]
                                         ++ cp "b.test") ]} [])
      ∧ lines = [cp "a.test"; cp "b.test"].
Proof.
  split.
  - apply (proj1 (read_lines_trimmed_nonempty (cp "missing.txt")
                                              empty_world)).
    reflexivity.
  - destruct (proj2 (read_lines_trimmed_nonempty (cp "subs.txt")
               (World {[ cp "subs.txt" :=
                           File (cp "  a.test " ++ [CR; LF; 9%N; LF]
                                 ++ cp "b.test") ]} []))
               (cp "  a.test " ++ [CR; LF; 9%N; LF] ++ cp "b.test"))
      as (lines & Hrun & Hlines & _).
    + reflexivity.
    + exists lines. split; [exact Hrun|]. rewrite Hlines. reflexivity.
Defined.

Lemma universal_newlines_no_CR s : CR ∉ s → universal_newlines s = s.
Proof.
  induction s as [|c t IH]; [done|]. intros [Hc Ht]%not_elem_of_cons.
  cbn [universal_newlines].
  destruct (N.eqb_spec c CR); [done|]. by rewrite IH.
Qed.

Lemma iter_lines_from_line l : ∀ cur rest,
  LF ∉ l →
  iter_lines_from cur (l ++ LF :: rest)
  = (cur ++ l ++ [LF]) :: iter_lines_from [] rest.
Proof.
  induction l as [|c t IH]; intros cur rest Hl; simpl.
  - done.
  - apply not_elem_of_cons in Hl as [Hc Ht].
    destruct (N.eqb_spec c LF); [done|].
    rewrite IH by done. by rewrite <- app_assoc.
Qed.

Lemma iter_lines_from_render lines :
  Forall (λ l, LF ∉ l) lines →
  iter_lines_from [] (render_lines lines) = map (λ l, l ++ [LF]) lines.
Proof.
  unfold render_lines. induction 1 as [|l t Hl _ IH]; simpl; [done|].
  rewrite <- app_assoc. simpl. rewrite iter_lines_from_line by done.
  by rewrite IH.
Qed.

Lemma lstrip_fixed s :
  (∀ c, head s = Some c → isspace c = false) → lstrip s = s.
Proof.
  destruct s as [|c t]; [done|]. intros Hc. simpl.
  by rewrite Hc.
Qed.

Lemma strip_line l :
  l ≠ [] → strip l = l → strip (l ++ [LF]) = l.
Proof.
  intros Hne Hl.
  destruct (strip_spec l) as (_ & _ & _ & _ & _ & Hhead & Hlast).
  rewrite Hl in Hhead, Hlast.
  unfold strip. rewrite lstrip_fixed.
  - unfold rstrip. rewrite reverse_snoc. simpl.
    rewrite lstrip_fixed; [apply reverse_involutive|].
    intros c Hc. apply Hlast. by rewrite <- head_reverse.
  - intros c. destruct l as [|c' t]; [done|]. simpl. apply Hhead.
Qed.

Lemma stripped_rendered lines :
  Forall (λ l, l ≠ [] ∧ strip l = l) lines →
  stripped (map (λ l, l ++ [LF]) lines) = lines.
Proof.
  unfold stripped. induction 1 as [|l t [Hne Hl] _ IH].
  { done. }
  cbn [map List.filter]. rewrite strip_line by done.
  destruct l; [done|]. cbn [truthy map]. rewrite strip_line by done.
  by rewrite IH.
Qed.

Lemma universal_newlines_CR s : CR ∉ universal_newlines s.
Proof.
  remember (length s) as n eqn:Hn. revert s Hn.
  induction n as [n IH] using lt_wf_ind. intros s Hn.
  destruct s as [|c t]; [apply not_elem_of_nil|].
  cbn [universal_newlines]. destruct (N.eqb_spec c CR) as [->|Hc].
  - apply not_elem_of_cons. split; [done|].
    destruct t as [|c' t']; [apply not_elem_of_nil|].
    destruct (c' =? LF)%N.
    + apply (IH (length t')); [simpl in Hn; lia | done].
    + apply (IH (length (c' :: t'))); [simpl in *; lia | done].
  - apply not_elem_of_cons. split; [congruence|].
    apply (IH (length t)); [simpl in Hn; lia | done].
Qed.

(** A line of a file holds no line feed but, possibly, its last
    character. *)
Lemma iter_lines_from_shape s : ∀ cur,
  LF ∉ cur →
  Forall (λ l, ∃ body, (LF ∉ body) ∧ (l = body ∨ l = body ++ [LF]))
         (iter_lines_from cur s).
Proof.
  induction s as [|c t IH]; intros cur Hcur; simpl.
  - destruct cur; repeat constructor. eauto.
  - destruct (N.eqb_spec c LF) as [->|Hc].
    + constructor; [eauto|]. apply IH, not_elem_of_nil.
    + apply IH. rewrite elem_of_app, list_elem_of_singleton.
      intros [?|?]; [done | congruence].
Qed.

Lemma iter_lines_from_elem cur s l x :
  l ∈ iter_lines_from cur s → x ∈ l → x ∈ cur ++ s.
Proof.
  intros Hl Hx. rewrite <- (iter_lines_from_concat s cur).
  apply list_elem_of_In, in_concat. exists l.
  split; by apply list_elem_of_In.
Qed.

Lemma strip_elem s x : x ∈ strip s → x ∈ s.
Proof.
  destruct (strip_spec s) as (pre & post & Hs & _). intros Hx.
  rewrite Hs, !elem_of_app. auto.
Qed.

Lemma strip_no_LF body l :
  LF ∉ body → l = body ∨ l = body ++ [LF] → LF ∉ strip l.
Proof.
  intros Hbody [->| ->]; [by intros ?%strip_elem|].
  destruct (strip_spec (body ++ [LF]))
    as (pre & post & Hs & _ & _ & _ & Hlast).
  intros Hin.
  destruct post as [|x post _] using rev_ind.
  - rewrite app_nil_r in Hs.
    destruct (strip (body ++ [LF])) as [|y t _] using rev_ind;
      [by apply elem_of_nil in Hin|].
    rewrite app_assoc in Hs. apply app_inj_tail in Hs as [_ Hy].
    subst y. specialize (Hlast LF). rewrite last_snoc in Hlast.
    by specialize (Hlast eq_refl).
  - rewrite !app_assoc in Hs. apply app_inj_tail in Hs as [Hb _].
    apply Hbody. rewrite Hb, !elem_of_app. auto.
Qed.

Lemma strip_idemp s : strip (strip s) = strip s.
Proof.
  destruct (strip_spec s) as (_ & _ & _ & _ & _ & Hhead & Hlast).
  unfold strip at 1. rewrite lstrip_fixed by done.
  unfold rstrip. rewrite lstrip_fixed; [apply reverse_involutive|].
  intros c Hc. apply Hlast. by rewrite <- head_reverse.
Qed.

(** What [read_lines] answers for a file: lines that are non-empty,
    trimmed, and hold neither line feed nor carriage return. *)
Lemma stripped_iter_lines_plain content :
  Forall (λ l, l ≠ [] ∧ strip l = l ∧ (LF ∉ l) ∧ (CR ∉ l))
         (stripped (iter_lines content)).
Proof.
  apply Forall_forall. intros l. unfold stripped.
  rewrite list_elem_of_In, in_map_iff.
  intros (raw & <- & [Hraw Hne]%filter_In).
  apply list_elem_of_In in Hraw. split_and!.
  - by apply truthy_nonempty.
  - apply strip_idemp.
  - unfold iter_lines in Hraw.
    pose proof (iter_lines_from_shape (universal_newlines content) [])
      as Hshape.
    rewrite Forall_forall in Hshape.
    destruct (Hshape (not_elem_of_nil _) raw Hraw) as (body & Hbody & Hl).
    by eapply strip_no_LF.
  - intros Hcr%strip_elem.
    apply (universal_newlines_CR content).
    by apply (iter_lines_from_elem [] _ raw).
Qed.

(** Such lines, written one per line, are read back as they are. *)
Lemma stripped_iter_render lines :
  Forall (λ l, l ≠ [] ∧ strip l = l ∧ (LF ∉ l) ∧ (CR ∉ l)) lines →
  stripped (iter_lines (render_lines lines)) = lines.
Proof.
  intros Hlines. unfold iter_lines. rewrite universal_newlines_no_CR.
  - rewrite iter_lines_from_render.
    + apply stripped_rendered. eapply Forall_impl; [exact Hlines|].
      naive_solver.
    + eapply Forall_impl; [exact Hlines|]. naive_solver.
  - unfold render_lines. intros Hin.
    apply list_elem_of_In, in_concat in Hin as (piece & Hpiece & Hc).
    apply in_map_iff in Hpiece as (l & <- & Hl).
    rewrite Forall_forall in Hlines.
    destruct (Hlines l) as (_ & _ & _ & Hcr); [by apply list_elem_of_In|].
    apply list_elem_of_In, elem_of_app in Hc as [?|Hc]; [done|].
    by apply list_elem_of_singleton in Hc.
Qed.

Lemma lines_of_plain f p :
  Forall (λ l, l ≠ [] ∧ strip l = l ∧ (LF ∉ l) ∧ (CR ∉ l)) (lines_of f p).
Proof.
  unfold lines_of. destruct (f !! p) as [[content|]|]; try constructor.
  apply stripped_iter_lines_plain.
Qed.

(** ** Merging *)

Lemma merge_histories_loop_run outputs : ∀ all_lines w,
  (∀ p, p ∈ outputs → fs w !! p ≠ Some Dir) →
  merge_histories_loop outputs all_lines w
  = (Ok (all_lines ++ concat (map (lines_of (fs w)) outputs)), w).
Proof.
  induction outputs as [|p rest IH]; intros all_lines w Hfiles; simpl.
  - by rewrite app_nil_r.
  - rewrite bind_run, read_lines_run. unfold lines_of at 1.
    assert (Hp : fs w !! p ≠ Some Dir) by (apply Hfiles; left).
    assert (Hrest : ∀ q, q ∈ rest → fs w !! q ≠ Some Dir)
      by (intros q Hq; apply Hfiles; by right).
    destruct (fs w !! p) as [[content|]|]; [| done |];
      rewrite IH by done; by rewrite <- app_assoc.
Qed.

Lemma unique_preserve_order_elem {A} `{Countable A} (l : list A) x :
  x ∈ unique_preserve_order l ↔ x ∈ l.
Proof. rewrite upo_fresh_of, fresh_of_elem. set_solver. Qed.

(** C5. [merge_histories] reads its inputs in the order given, puts
    their lines end to end, removes the repetitions keeping first
    occurrences, and writes the result, each line followed by a line
    feed, so that reading the merged file gives these lines back; an
    input that does not exist adds no line and raises nothing. *)
Theorem merge_histories_first_seen (outputs : list str) (merged_out : str)
    (w : world) :
  (∀ p, p ∈ outputs → fs w !! p ≠ Some Dir) →
  fs w !! merged_out ≠ Some Dir →
  merge_histories outputs merged_out w
  = (Ok tt,
     World (<[merged_out :=
                File (concat
                        (map (λ line, line ++ [LF])
                           (unique_preserve_order
                              (concat (map (lines_of (fs w)) outputs)))))]>
              (fs w))
           (trace w))
  ∧ read_lines merged_out (merge_histories outputs merged_out w).2
    = (Ok (unique_preserve_order (concat (map (lines_of (fs w)) outputs))),
       (merge_histories outputs merged_out w).2)
  ∧ (∀ p, fs w !! p = None → lines_of (fs w) p = [])
  ∧ (∀ p content, fs w !! p = Some (File content) →
       read_lines p w = (Ok (lines_of (fs w) p), w)
       ∧ lines_of (fs w) p
         = List.filter truthy (map strip (iter_lines content))).
Proof.
  intros Hfiles Hout.
  assert (Hrun : merge_histories outputs merged_out w
                 = (Ok tt,
                    World (<[merged_out :=
                               File (render_lines
                                       (unique_preserve_order
                                          (concat (map (lines_of (fs w))
                                                       outputs))))]>
                             (fs w))
                          (trace w))).
  { unfold merge_histories.
    rewrite bind_run, merge_histories_loop_run by done. simpl.
    rewrite write_lines_run.
    destruct (fs w !! merged_out) as [[content|]|]; done. }
  split_and!.
  - exact Hrun.
  - rewrite Hrun. cbn [snd]. rewrite read_lines_run. cbn [fs].
    rewrite lookup_insert_eq, stripped_iter_render; [done|].
    apply Forall_forall. intros l Hl.
    apply (proj1 (unique_preserve_order_elem _ _)) in Hl.
    apply list_elem_of_In, in_concat in Hl as (ls & Hls & Hl).
    apply in_map_iff in Hls as (p & <- & _).
    pose proof (lines_of_plain (fs w) p) as Hplain.
    rewrite Forall_forall in Hplain. by apply Hplain, list_elem_of_In.
  - intros p Hp. unfold lines_of. by rewrite Hp.
  - intros p content Hp. rewrite read_lines_run. unfold lines_of.
    rewrite Hp. split; [done | apply stripped_filter_map].
Qed.

Lemma merge_histories_first_seen_witness :
  merge_histories [cp "A"; cp "absent"; cp "B"] (cp "xss.txt")
    (World {[ cp "A" := File (cp "u1" ++ [LF] ++ cp "u2" ++ [LF]
                              ++ cp "u1" ++ [LF]);
              cp "B" := File (cp "u3" ++ [LF] ++ cp "u2" ++ [LF]) ]} [])
  = (Ok tt,
     World (<[ cp "xss.txt" :=
                 File (cp "u1" ++ [LF] ++ cp "u2" ++ [LF]
                       ++ cp "u3" ++ [LF]) ]>
              {[ cp "A" := File (cp "u1" ++ [LF] ++ cp "u2" ++ [LF]
                                 ++ cp "u1" ++ [LF]);
                 cp "B" := File (cp "u3" ++ [LF] ++ cp "u2" ++ [LF]) ]})
           [])
  ∧ read_lines (cp "xss.txt")
      (merge_histories [cp "A"; cp "absent"; cp "B"] (cp "xss.txt")
         (World {[ cp "A" := File (cp "u1" ++ [LF] ++ cp "u2" ++ [LF]
                                   ++ cp "u1" ++ [LF]);
                   cp "B" := File (cp "u3" ++ [LF] ++ cp "u2" ++ [LF]) ]}
                [])).2
    = (Ok [cp "u1"; cp "u2"; cp "u3"],
       (merge_histories [cp "A"; cp "absent"; cp "B"] (cp "xss.txt")
          (World {[ cp "A" := File (cp "u1" ++ [LF] ++ cp "u2" ++ [LF]
                                    ++ cp "u1" ++ [LF]);
                    cp "B" := File (cp "u3" ++ [LF] ++ cp "u2" ++ [LF]) ]}
                 [])).2).
Proof.
  destruct (merge_histories_first_seen
              [cp "A"; cp "absent"; cp "B"] (cp "xss.txt")
              (World {[ cp "A" := File (cp "u1" ++ [LF] ++ cp "u2" ++ [LF]
                                        ++ cp "u1" ++ [LF]);
                        cp "B" := File (cp "u3" ++ [LF] ++ cp "u2"
                                        ++ [LF]) ]} []))
    as (Hrun & Hread & _).
  - intros p Hp. vm_compute in Hp.
    repeat (apply elem_of_cons in Hp as [->|Hp]; [by vm_compute|]).
    by apply elem_of_nil in Hp.
  - by vm_compute.
  - split; [exact Hrun | exact Hread].
Defined.

(** ** Child processes *)

Lemma app_trace_assoc {A} (l1 l2 l3 : list A) :
  (l1 ++ l2) ++ l3 = l1 ++ l2 ++ l3.
Proof. by rewrite <- app_assoc. Qed.

(** A child whose output is not redirected: the whole effect of
    [run_command]. *)
Ltac run_M :=
  repeat (unfold mbind, M_bind, mret, M_ret, raise, emit, get_fs,
            get_trace, put_fs, when, sleep, log_info; simpl).

(** A child whose output is not redirected: the whole effect of
    [run_command]. *)
Lemma run_command_captured E args input_text verbose w :
  let proc := spawn E (trace w ++ cmd_echo verbose args) (fs w) args
                    input_text in
  run_command E args input_text None false verbose w
  = (Ok {| returncode := child_status proc;
           stdout := Some (child_stdout proc) |},
     World (child_fs proc)
           (trace w ++ cmd_echo verbose args
            ++ [Exec args input_text None (child_status proc)]
            ++ stderr_echo verbose proc)).
Proof.
  unfold run_command, cmd_echo, stderr_echo.
  destruct verbose; run_M.
  - destruct (truthy (child_stderr _)); run_M;
      by rewrite ?app_nil_r, ?app_trace_assoc.
  - by rewrite ?app_nil_r, ?app_trace_assoc.
Qed.

(** What [run_command] adds to the trace: when it returns, one [Exec]
    event carrying the status it returns, between echoes on stderr; when
    opening the output file fails, echoes only. *)
Lemma run_command_trace E args input_text output_file append verbose w :
  ∃ evs,
    trace (run_command E args input_text output_file append verbose w).2
    = trace w ++ evs
    ∧ match (run_command E args input_text output_file append verbose w).1
      with
      | Ok proc =>
          ∃ pre post,
            evs = pre ++ [Exec args input_text
                               (redirect_of output_file append)
                               (returncode proc)] ++ post
            ∧ Forall is_stderr pre ∧ Forall is_stderr post
      | Raise _ => Forall is_stderr evs
      end.
Proof.
  assert (Hstderr : ∀ text, is_stderr (Stderr text)) by (by eexists).
  unfold run_command, open_for_output, redirect_of.
  destruct verbose, output_file as [path|]; run_M;
    try (destruct (fs w !! path) as [[content|]|]; run_M;
         try (destruct append; run_M));
    try (destruct (truthy (child_stderr _)); run_M);
    rewrite ?app_trace_assoc; simpl.
  all: try (exists []; rewrite app_nil_r; split; [done|constructor]).
  all: eexists; (split; [reflexivity|]).
  all: try (by repeat constructor).
  all: try (eexists [_], [_]; split; [reflexivity|]; by repeat constructor).
  all: try (eexists [_], []; split; [reflexivity|]; by repeat constructor).
  all: try (eexists [], [_]; split; [reflexivity|]; by repeat constructor).
  all: try (eexists [], []; split; [reflexivity|]; by repeat constructor).
Qed.

(** ** What a computation adds to the trace *)

Section emits_rules.
Context (P : event → Prop).

Lemma emits_silent {A} (m : M A) : silent m → emits P m.
Proof. intros Hm w. exists []. by rewrite app_nil_r, Hm. Qed.

Lemma emits_ret {A} (a : A) : emits P (mret a).
Proof. by apply emits_silent. Qed.

Lemma emits_raise {A} e : emits P (raise e : M A).
Proof. by apply emits_silent. Qed.

Lemma emits_emit ev : P ev → emits P (emit ev).
Proof. intros Hev w. exists [ev]. split; [done | by constructor]. Qed.

Lemma emits_bind {A B} (m : M A) (f : A → M B) :
  emits P m → (∀ a, emits P (f a)) → emits P (m ≫= f).
Proof.
  intros Hm Hf w. rewrite bind_run.
  destruct (Hm w) as (evs1 & Ht1 & HP1).
  destruct (m w) as [[a|e] w1]; simpl in *.
  - destruct (Hf a w1) as (evs2 & Ht2 & HP2).
    exists (evs1 ++ evs2). rewrite Ht2, Ht1, app_trace_assoc.
    split; [done | by apply Forall_app].
  - by exists evs1.
Qed.

Lemma emits_when (c : bool) m : emits P m → emits P (when c m).
Proof. destruct c; [done | intros _; apply emits_ret]. Qed.

Lemma emits_run_command E args input_text output_file append verbose :
  (∀ text, P (Stderr text)) →
  (∀ status,
     P (Exec args input_text (redirect_of output_file append) status)) →
  emits P (run_command E args input_text output_file append verbose).
Proof.
  intros Hstderr Hexec w.
  assert (Hall : ∀ evs, Forall is_stderr evs → Forall P evs).
  { intros evs Hevs. eapply Forall_impl; [exact Hevs|].
    by intros ev [text ->]. }
  destruct (run_command_trace E args input_text output_file append
                              verbose w) as (evs & Ht & Hevs).
  exists evs. split; [done|].
  destruct (run_command _ _ _ _ _ _ w).1 as [proc|e]; [|by apply Hall].
  destruct Hevs as (pre & post & -> & Hpre & Hpost).
  rewrite !Forall_app, Forall_singleton. auto.
Qed.
End emits_rules.

Lemma silent_bind {A B} (m : M A) (f : A → M B) :
  silent m → (∀ a, silent (f a)) → silent (m ≫= f).
Proof.
  intros Hm Hf w. rewrite bind_run. specialize (Hm w).
  destruct (m w) as [[a|e] w1]; simpl in *; [|done].
  by rewrite Hf.
Qed.

Lemma silent_read_lines path : silent (read_lines path).
Proof.
  intros w. rewrite read_lines_run. by destruct (fs w !! path) as [[|]|].
Qed.

Lemma silent_write_lines path lines : silent (write_lines path lines).
Proof.
  intros w. rewrite write_lines_run. by destruct (fs w !! path) as [[|]|].
Qed.

Lemma silent_path_exists path : silent (path_exists path).
Proof. by intros w. Qed.

Lemma silent_remove path : silent (remove path).
Proof.
  intros w. unfold remove. run_M. by destruct (fs w !! path) as [[|]|].
Qed.

Lemma silent_merge_histories_loop outputs : ∀ all_lines,
  silent (merge_histories_loop outputs all_lines).
Proof.
  induction outputs as [|p rest IH]; intros all_lines; simpl.
  - done.
  - apply silent_bind; [apply silent_read_lines | intros; apply IH].
Qed.

Lemma silent_merge_histories outputs merged_out :
  silent (merge_histories outputs merged_out).
Proof.
  apply silent_bind; [apply silent_merge_histories_loop|].
  intros. apply silent_write_lines.
Qed.

Lemma silent_sum_line_counts generated : ∀ total,
  silent (sum_line_counts generated total).
Proof.
  induction generated as [|p rest IH]; intros total; simpl.
  - done.
  - apply silent_bind; [apply silent_read_lines | intros; apply IH].
Qed.

(** One step of a proof that a computation emits only events of some
    kind; the side conditions on single events are left to the caller. *)
Ltac emits_step :=
  lazymatch goal with
  | |- emits _ (mbind _ _) => apply emits_bind; [|intros]
  | |- emits _ (mret _) => apply emits_ret
  | |- emits _ (raise _) => apply emits_raise
  | |- emits _ (when _ _) => apply emits_when
  | |- emits _ (sleep _) => apply emits_emit
  | |- emits _ (log_info _) => apply emits_emit
  | |- emits _ (emit _) => apply emits_emit
  | |- emits _ (read_lines _) => apply emits_silent, silent_read_lines
  | |- emits _ (write_lines _ _) => apply emits_silent, silent_write_lines
  | |- emits _ (path_exists _) => apply emits_silent, silent_path_exists
  | |- emits _ (remove _) => apply emits_silent, silent_remove
  | |- emits _ (merge_histories _ _) =>
      apply emits_silent, silent_merge_histories
  | |- emits _ (sum_line_counts _ _) =>
      apply emits_silent, silent_sum_line_counts
  | |- emits _ (run_command _ _ _ _ _ _) => apply emits_run_command; intros
  | |- emits _ (if ?c then _ else _) => destruct c
  | |- emits _ (match ?x with _ => _ end) => destruct x
  end.

(** The stages that follow discovery run their children without
    redirection; whatever holds of such children, of sleeps and of the
    writes to stderr holds of all they emit. *)
Section later_stages.
Context (E : env) (P : event → Prop).
Hypothesis P_stderr : ∀ text, P (Stderr text).
Hypothesis P_sleep : ∀ ms, P (Sleep ms).
Hypothesis P_exec : ∀ argv stdin status, P (Exec argv stdin None status).

Lemma emits_run_waymore subs_file out_file verbose :
  emits P (run_waymore E subs_file out_file verbose).
Proof using All. unfold run_waymore. repeat emits_step; auto. Qed.

Lemma emits_run_katana subs_file out_file verbose :
  emits P (run_katana E subs_file out_file verbose).
Proof using All. unfold run_katana. repeat emits_step; auto. Qed.

Lemma emits_run_knoxnl input_file out_file verbose :
  emits P (run_knoxnl E input_file out_file verbose).
Proof using All. unfold run_knoxnl. repeat emits_step; auto. Qed.

Lemma emits_run_gau_loop out_file rate_limit verbose total batches :
  ∀ i, emits P (run_gau_loop E out_file rate_limit verbose total i batches).
Proof using All.
  induction batches as [|batch rest IH]; intros i; simpl.
  - apply emits_ret.
  - repeat emits_step; auto.
Qed.

Lemma emits_run_gau subs_file out_file rate_limit verbose :
  emits P (run_gau E subs_file out_file rate_limit verbose).
Proof using All.
  unfold run_gau. repeat emits_step; auto using emits_run_gau_loop.
Qed.

Lemma emits_uro_loop rate_limit verbose batches :
  ∀ acc, emits P (uro_loop E rate_limit verbose batches acc).
Proof using All.
  induction batches as [|batch rest IH]; intros acc; simpl.
  - apply emits_ret.
  - repeat emits_step; auto.
Qed.

Lemma emits_httpx_loop rate_limit verbose batches :
  ∀ acc, emits P (httpx_loop E rate_limit verbose batches acc).
Proof using All.
  induction batches as [|batch rest IH]; intros acc; simpl.
  - apply emits_ret.
  - repeat emits_step; auto.
Qed.

Lemma emits_filter_with_gf_uro_httpx merged_in final_out rate_limit
    verbose :
  emits P (filter_with_gf_uro_httpx E merged_in final_out rate_limit
                                    verbose).
Proof using All.
  unfold filter_with_gf_uro_httpx.
  repeat emits_step; auto using emits_uro_loop, emits_httpx_loop.
Qed.
End later_stages.

(** ** The discovery stage *)

Lemma stderr_not_history ev : is_stderr ev → ¬ history_exec ev.
Proof. intros [text ->] (name & Hname & _). done. Qed.

Lemma stderr_not_probe subs_file ev :
  is_stderr ev → ¬ discovery_probe_failed subs_file ev.
Proof. intros [text ->] (? & ? & ? & ? & _). done. Qed.

Lemma httpx_not_history stdin redirect status :
  ¬ history_exec (Exec [cp "httpx"; cp "-silent"] stdin redirect status).
Proof.
  intros (name & [= <-] & Hname). revert Hname.
  rewrite !elem_of_cons, elem_of_nil. by vm_compute; intros [?|[?|[?|[]]]].
Qed.

Lemma subfinder_not_history domain stdin redirect status :
  ¬ history_exec
      (Exec [cp "subfinder"; cp "-d"; domain; cp "-all"; cp "-silent"]
            stdin redirect status).
Proof.
  intros (name & [= <-] & Hname). revert Hname.
  rewrite !elem_of_cons, elem_of_nil. by vm_compute; intros [?|[?|[?|[]]]].
Qed.

Lemma subfinder_to_httpx_loop_guarded E subs_out rate_limit verbose
    batches :
  ∀ idx,
    guarded (λ ev, ¬ history_exec ev) (discovery_probe_failed subs_out)
            (RuntimeError "httpx failed while probing subdomains")
            (subfinder_to_httpx_loop E subs_out rate_limit verbose idx
                                     batches).
Proof.
  unfold guarded.
  induction batches as [|batch rest IH]; intros idx w; simpl.
  - exists []. rewrite app_nil_r. split_and!; [done | constructor |].
    by intros ?%Exists_nil.
  - rewrite bind_run.
    destruct (run_command_trace E [cp "httpx"; cp "-silent"]
                (Some (batch_input batch)) (Some subs_out)
                (negb (idx =? 0)) verbose w) as (evs0 & Ht0 & Hevs0).
    destruct (run_command _ _ _ _ _ _ w) as [[proc|e] w1]; simpl in *.
    + destruct Hevs0 as (pre & post & Hevs0 & Hpre & Hpost).
      assert (Hq : Forall (λ ev, ¬ history_exec ev) evs0).
      { subst evs0. apply Forall_app_2; [|constructor].
        - eapply Forall_impl; [exact Hpre|]. apply stderr_not_history.
        - apply httpx_not_history.
        - eapply Forall_impl; [exact Hpost|]. apply stderr_not_history. }
      destruct (Z.eqb_spec (returncode proc) 0) as [Hzero|Hfail]; simpl.
      * assert (Hok : ¬ Exists (discovery_probe_failed subs_out) evs0).
        { subst evs0. rewrite Exists_app, Exists_cons.
          intros [Hx|[Hx|Hx]].
          - apply Exists_exists in Hx as (ev & Hev & Hbad).
            rewrite Forall_forall in Hpre.
            by eapply stderr_not_probe; [apply Hpre|].
          - destruct Hx as (? & ? & ? & [= <- <- <-] & ?). done.
          - apply Exists_exists in Hx as (ev & Hev & Hbad).
            rewrite Forall_forall in Hpost.
            by eapply stderr_not_probe; [apply Hpost|]. }
        set (w2 := (when (rate_limit >? 0)%Z (sleep 100) w1).2).
        assert (Hw2 : ∃ evs2, trace w2 = trace w1 ++ evs2
                              ∧ Forall is_sleep evs2
                              ∧ when (rate_limit >? 0)%Z (sleep 100) w1
                                = (Ok tt, w2)).
        { subst w2. destruct (rate_limit >? 0)%Z; run_M.
          - exists [Sleep 100]. split_and!; [done| |done].
            repeat constructor. by eexists.
          - exists []. by rewrite app_nil_r. }
        destruct Hw2 as (evs2 & Ht2 & Hsleep & Hrun).
        rewrite bind_run, Hrun.
        destruct (IH (S idx) w2) as (evs3 & Ht3 & Hq3 & Hfail3).
        exists (evs0 ++ evs2 ++ evs3).
        split_and!.
        -- rewrite Ht3, Ht2, Ht0. by rewrite <- !app_assoc.
        -- apply Forall_app_2; [done|]. apply Forall_app_2; [|done].
           eapply Forall_impl; [exact Hsleep|].
           intros ev [ms ->] (name & Hname & _). done.
        -- rewrite !Exists_app.
           intros [Hx|[Hx|Hx]]; [done | | by apply Hfail3].
           exfalso. apply Exists_exists in Hx as (ev & Hev & Hbad).
           rewrite Forall_forall in Hsleep.
           destruct (Hsleep ev Hev) as [ms ->].
           by destruct Hbad as (? & ? & ? & ? & _).
      * eexists. split_and!; [exact Ht0 | exact Hq | done].
    + exists evs0. split_and!; [done| |].
      * eapply Forall_impl; [exact Hevs0|]. apply stderr_not_history.
      * intros (ev & Hev & Hbad)%Exists_exists. exfalso.
        rewrite Forall_forall in Hevs0.
        by eapply stderr_not_probe; [apply Hevs0|].
Qed.

Section fatal_rules.
Context (Q F : event → Prop) (err : exn).

Lemma guarded_clean {A} (m : M A) :
  emits (λ ev, Q ev ∧ ¬ F ev) m → guarded Q F err m.
Proof.
  intros Hm w. destruct (Hm w) as (evs & Ht & Hevs).
  exists evs. split_and!; [done| |].
  - eapply Forall_impl; [exact Hevs|]. by intros ev [? _].
  - intros (ev & Hev & Hbad)%Exists_exists. exfalso.
    rewrite Forall_forall in Hevs. by destruct (Hevs ev Hev).
Qed.

Lemma guarded_silent {A} (m : M A) : silent m → guarded Q F err m.
Proof. intros Hm. by apply guarded_clean, emits_silent. Qed.

Lemma guarded_bind {A B} (m : M A) (f : A → M B) :
  guarded Q F err m → (∀ a, guarded Q F err (f a)) →
  guarded Q F err (m ≫= f).
Proof.
  intros Hm Hf w. rewrite bind_run.
  destruct (Hm w) as (evs1 & Ht1 & HQ1 & HF1).
  destruct (m w) as [[a|e] w1]; simpl in *.
  - destruct (Hf a w1) as (evs2 & Ht2 & HQ2 & HF2).
    exists (evs1 ++ evs2). split_and!.
    + by rewrite Ht2, Ht1, app_trace_assoc.
    + by apply Forall_app_2.
    + intros [Hx|Hx]%Exists_app; [|by apply HF2].
      by specialize (HF1 Hx).
  - exists evs1. split_and!; [done | done |].
    intros Hx. specialize (HF1 Hx). by simplify_eq.
Qed.

Lemma fatal_clean {A} (m : M A) : emits (λ ev, ¬ F ev) m → fatal Q F err m.
Proof.
  intros Hm w. destruct (Hm w) as (evs & Ht & Hevs).
  exists evs. split; [done|].
  intros (ev & Hev & Hbad)%Exists_exists. exfalso.
  rewrite Forall_forall in Hevs. by apply (Hevs ev Hev).
Qed.

Lemma fatal_bind_clean {A B} (m : M A) (f : A → M B) :
  emits (λ ev, Q ev ∧ ¬ F ev) m → (∀ a, fatal Q F err (f a)) →
  fatal Q F err (m ≫= f).
Proof.
  intros Hm Hf w. rewrite bind_run.
  destruct (Hm w) as (evs1 & Ht1 & H1).
  assert (HQ1 : Forall Q evs1).
  { eapply Forall_impl; [exact H1|]. by intros ev [? _]. }
  assert (HF1 : ¬ Exists F evs1).
  { intros (ev & Hev & Hbad)%Exists_exists.
    rewrite Forall_forall in H1. by destruct (H1 ev Hev). }
  destruct (m w) as [[a|e] w1]; simpl in *.
  - destruct (Hf a w1) as (evs2 & Ht2 & H2).
    exists (evs1 ++ evs2). split.
    + by rewrite Ht2, Ht1, app_trace_assoc.
    + intros [Hx|Hx]%Exists_app; [done|].
      destruct (H2 Hx) as [Hr HQ2]. split; [done | by apply Forall_app_2].
  - exists evs1. split; [done|]. by intros Hx.
Qed.

Lemma fatal_bind_guarded {A B} (m : M A) (f : A → M B) :
  guarded Q F err m → (∀ a, emits (λ ev, ¬ F ev) (f a)) →
  fatal Q F err (m ≫= f).
Proof.
  intros Hm Hf w. rewrite bind_run.
  destruct (Hm w) as (evs1 & Ht1 & HQ1 & HF1).
  destruct (m w) as [[a|e] w1]; simpl in *.
  - destruct (Hf a w1) as (evs2 & Ht2 & H2).
    exists (evs1 ++ evs2). split.
    + by rewrite Ht2, Ht1, app_trace_assoc.
    + intros [Hx|Hx]%Exists_app.
      * by specialize (HF1 Hx).
      * exfalso. apply Exists_exists in Hx as (ev & Hev & Hbad).
        rewrite Forall_forall in H2. by apply (H2 ev Hev).
  - exists evs1. split; [done|]. intros Hx. specialize (HF1 Hx).
    by simplify_eq.
Qed.
End fatal_rules.

Lemma silent_when (c : bool) m : silent m → silent (when c m).
Proof. destruct c; [done | by intros _ w]. Qed.

Lemma subfinder_to_httpx_guarded E domain subs_out rate_limit verbose :
  guarded (λ ev, ¬ history_exec ev) (discovery_probe_failed subs_out)
          (RuntimeError "httpx failed while probing subdomains")
          (subfinder_to_httpx E domain subs_out rate_limit verbose).
Proof.
  unfold subfinder_to_httpx. apply guarded_bind.
  { apply guarded_clean, emits_run_command.
    - intros text. split.
      + apply stderr_not_history. by eexists.
      + apply stderr_not_probe. by eexists.
    - intros status. split; [apply subfinder_not_history|].
      by intros (? & ? & ? & ? & _). }
  intros proc. destruct (negb _).
  { apply guarded_silent. by intros w. }
  destruct (negb (truthy _)).
  { apply guarded_silent, silent_bind; [apply silent_write_lines|].
    by intros _ w. }
  apply guarded_bind; [apply guarded_silent, silent_path_exists|].
  intros e. apply guarded_bind.
  { apply guarded_silent, silent_when, silent_remove. }
  intros _. apply guarded_bind; [apply subfinder_to_httpx_loop_guarded|].
  intros _. apply guarded_silent, silent_bind; [apply silent_read_lines|].
  by intros live w.
Qed.

(** ** The driver *)

Lemma probe_needs_redirect subs_file argv stdin status :
  ¬ discovery_probe_failed subs_file (Exec argv stdin None status).
Proof. by intros (? & ? & ? & ? & _). Qed.

Lemma stdout_not_probe subs_file text :
  ¬ discovery_probe_failed subs_file (Stdout text).
Proof. by intros (? & ? & ? & ? & _). Qed.

Lemma sleep_not_probe subs_file ms :
  ¬ discovery_probe_failed subs_file (Sleep ms).
Proof. by intros (? & ? & ? & ? & _). Qed.

Lemma stdout_not_history text : ¬ history_exec (Stdout text).
Proof. by intros (? & ? & _). Qed.

Lemma main_fatal E args :
  fatal (λ ev, ¬ history_exec ev) (discovery_probe_failed (cp "subs.txt"))
        (RuntimeError "httpx failed while probing subdomains")
        (main E args).
Proof.
  assert (Hstderr : ∀ text,
            ¬ discovery_probe_failed (cp "subs.txt") (Stderr text)).
  { intros text. apply stderr_not_probe. by eexists. }
  unfold main. apply fatal_bind_clean.
  { apply emits_emit. split; [apply stdout_not_history|].
    apply stdout_not_probe. }
  intros _. cbv zeta.
  destruct (ensure_tools_exist E _) as [ok missing].
  destruct (negb ok).
  { apply fatal_clean. repeat emits_step; auto. }
  apply fatal_bind_clean.
  { apply emits_emit. split; [apply stdout_not_history|].
    apply stdout_not_probe. }
  intros _. apply fatal_bind_guarded; [apply subfinder_to_httpx_guarded|].
  intros [discovered live].
  repeat first
    [ apply emits_run_waymore | apply emits_run_katana
    | apply emits_run_gau | apply emits_filter_with_gf_uro_httpx
    | apply emits_run_knoxnl | emits_step ];
    auto using probe_needs_redirect, stdout_not_probe, sleep_not_probe.
Qed.

(** C7. If, during discovery, the liveness prober ends a batch with a
    non-zero status, [subfinder_to_httpx] raises
    [RuntimeError("httpx failed while probing subdomains")]; [main] ends
    with that same error, and nothing it has run up to there is a history
    collector ([waymore], [katana], [gau]).  The prober of the discovery
    stage is recognised in the trace of [main] by its output going to
    the subdomains file. *)
Theorem discovery_probe_failure_is_fatal (E : env) :
  (∀ domain subs_out rate_limit verbose w evs,
      trace (subfinder_to_httpx E domain subs_out rate_limit verbose w).2
      = trace w ++ evs →
      Exists (discovery_probe_failed subs_out) evs →
      (subfinder_to_httpx E domain subs_out rate_limit verbose w).1
      = Raise (RuntimeError "httpx failed while probing subdomains"))
  ∧ (∀ args w evs,
      trace (main E args w).2 = trace w ++ evs →
      Exists (discovery_probe_failed (cp "subs.txt")) evs →
      (main E args w).1
      = Raise (RuntimeError "httpx failed while probing subdomains")
      ∧ Forall (λ ev, ¬ history_exec ev) evs).
Proof.
  split.
  - intros domain subs_out rate_limit verbose w evs Ht Hbad.
    destruct (subfinder_to_httpx_guarded E domain subs_out rate_limit
                                         verbose w)
      as (evs' & Ht' & _ & Hfail).
    rewrite Ht in Ht'. apply app_inv_head in Ht' as <-. by apply Hfail.
  - intros args w evs Ht Hbad.
    destruct (main_fatal E args w) as (evs' & Ht' & Hfail).
    rewrite Ht in Ht'. apply app_inv_head in Ht' as <-. by apply Hfail.
Qed.

Lemma discovery_probe_failure_is_fatal_witness :
  (main probe_down (example_args mode_all 0) empty_world).1
  = Raise (RuntimeError "httpx failed while probing subdomains")
  ∧ Forall (λ ev, ¬ history_exec ev)
           (trace (main probe_down (example_args mode_all 0)
                        empty_world).2).
Proof.
  apply (proj2 (discovery_probe_failure_is_fatal probe_down)
               (example_args mode_all 0) empty_world).
  - reflexivity.
  - apply Exists_exists.
    exists (Exec [cp "httpx"; cp "-silent"] (Some (cp "a.test" ++ [LF]))
                 (Some (cp "subs.txt", false)) 1).
    split.
    + apply list_elem_of_In. vm_compute.
      repeat (first [left; reflexivity | right]).
    + eexists _, _, _. split; [reflexivity | done].
Defined.

(** ** The preflight check *)

Lemma ensure_tools_exist_ok E tools :
  (ensure_tools_exist E tools).1 = true
  ↔ (ensure_tools_exist E tools).2 = [].
Proof.
  unfold ensure_tools_exist. simpl.
  destruct (List.filter _ tools); simpl; split; done.
Qed.

Lemma ensure_tools_exist_missing E tools tool :
  tool ∈ (ensure_tools_exist E tools).2
  ↔ tool ∈ tools ∧ which E tool = None.
Proof.
  unfold ensure_tools_exist. simpl.
  rewrite list_elem_of_In, filter_In, <- list_elem_of_In.
  by rewrite bool_decide_eq_true.
Qed.

(** C8. [ensure_tools_exist] answers success exactly when the list of
    missing names it answers is empty, and that list holds exactly the
    names that do not resolve, in the order asked.  If a tool required by
    the mode does not resolve, [main] prints the banner, writes the list
    of all the missing names and the hint to stderr, and exits with code
    1: no child process has run and the files are untouched. *)
Theorem missing_tools_abort (E : env) :
  (∀ tools,
      (ensure_tools_exist E tools).1 = true
      ↔ (ensure_tools_exist E tools).2 = [])
  ∧ (∀ tools,
      sublist (ensure_tools_exist E tools).2 tools
      ∧ ∀ tool, tool ∈ (ensure_tools_exist E tools).2
                ↔ tool ∈ tools ∧ which E tool = None)
  ∧ (∀ args w,
      (∃ tool, tool ∈ required_tools (arg_mode args)
               ∧ which E tool = None) →
      ∃ banner,
        main E args w
        = (Raise (SystemExit 1),
           World (fs w)
                 (trace w
                  ++ [Stdout banner;
                      Stderr (cp "Missing required tools: "
                              ++ join (cp ", ")
                                   (ensure_tools_exist E
                                      (required_tools (arg_mode args))).2
                              ++ [LF]);
                      Stderr
                        (cp "Please install them and ensure they are in PATH."
                         ++ [LF])]))).
Proof.
  split_and!.
  - apply ensure_tools_exist_ok.
  - intros tools. split; [|apply ensure_tools_exist_missing].
    unfold ensure_tools_exist. simpl.
    induction tools as [|t tools IH]; simpl; [constructor|].
    destruct (bool_decide _); by constructor.
  - intros args w (tool & Hreq & Hwhich).
    assert (Hmissing : tool ∈ (ensure_tools_exist E
                                 (required_tools (arg_mode args))).2)
      by (by apply ensure_tools_exist_missing).
    assert (Hok : (ensure_tools_exist E
                     (required_tools (arg_mode args))).1 = false).
    { apply not_true_is_false. intros Hok%ensure_tools_exist_ok.
      rewrite Hok in Hmissing. by apply elem_of_nil in Hmissing. }
    unfold main. rewrite bind_run. unfold print_banner at 1, emit at 1.
    cbv beta iota zeta.
    destruct (ensure_tools_exist E _) as [ok missing]. simpl in Hok.
    subst ok. cbn [negb]. eexists. run_M.
    by rewrite !app_trace_assoc.
Qed.

Lemma missing_tools_abort_witness :
  ∃ banner,
    main crawlers_missing (example_args mode_all 0) empty_world
    = (Raise (SystemExit 1),
       World ∅
             [Stdout banner;
              Stderr (cp "Missing required tools: katana, gau" ++ [LF]);
              Stderr (cp "Please install them and ensure they are in PATH."
                      ++ [LF])]).
Proof.
  destruct (proj2 (proj2 (missing_tools_abort crawlers_missing))
                  (example_args mode_all 0) empty_world)
    as (banner & Hmain).
  - exists (cp "gau"). split; [|reflexivity].
    apply list_elem_of_In. vm_compute. tauto.
  - exists banner. exact Hmain.
Defined.

(** ** The empty discovery *)

Lemma stripped_blank lines :
  Forall (λ line, strip line = []) lines → stripped lines = [].
Proof.
  unfold stripped. induction 1 as [|l t Hl _ IH]; simpl; [done|].
  by rewrite Hl.
Qed.

Lemma stdout_lines_captured status text :
  stdout_lines {| returncode := status; stdout := Some text |}
  = splitlines text.
Proof. unfold stdout_lines. simpl. by destruct text. Qed.

(** C9, as amended.  If the subdomain enumerator ends with status 0 and
    every line of its output is blank, the discovery stage writes an
    empty subdomains file and returns (0, 0); the enumerator is the only
    child that has run. *)
Theorem no_subdomains_short_circuit (E : env) (domain subs_out : str)
    (rate_limit : Z) (verbose : bool) (w : world) :
  let argv := [cp "subfinder"; cp "-d"; domain; cp "-all"; cp "-silent"] in
  let proc := spawn E (trace w ++ cmd_echo verbose argv) (fs w) argv None in
  child_status proc = 0%Z →
  Forall (λ line, strip line = []) (splitlines (child_stdout proc)) →
  child_fs proc !! subs_out ≠ Some Dir →
  subfinder_to_httpx E domain subs_out rate_limit verbose w
  = (Ok (0, 0),
     World (<[subs_out := File []]> (child_fs proc))
           (trace w ++ cmd_echo verbose argv
            ++ [Exec argv None None 0] ++ stderr_echo verbose proc)).
Proof.
  intros argv proc Hstatus Hblank Hfile.
  unfold subfinder_to_httpx.
  rewrite bind_run, run_command_captured. fold argv. fold proc.
  cbn [returncode]. rewrite Hstatus. cbn [Z.eqb negb].
  rewrite stdout_lines_captured, stripped_blank by done.
  cbn [truthy negb]. rewrite bind_run, write_lines_run. cbn [fs trace].
  destruct (child_fs proc !! subs_out) as [[content|]|]; done.
Qed.

Lemma no_subdomains_short_circuit_witness :
  subfinder_to_httpx nothing_found (cp "example.com") (cp "subs.txt") 5
                     false empty_world
  = (Ok (0, 0),
     World {[ cp "subs.txt" := File [] ]}
           [Exec [cp "subfinder"; cp "-d"; cp "example.com"; cp "-all";
                  cp "-silent"] None None 0]).
Proof.
  refine (no_subdomains_short_circuit nothing_found (cp "example.com")
            (cp "subs.txt") 5 false empty_world _ _ _).
  - reflexivity.
  - vm_compute. repeat constructor.
  - by vm_compute.
Defined.

(** C9 as the spec words it fails when the enumerator itself fails: its
    output has no line at all, yet the stage raises and writes no
    file. *)
Lemma failed_enumerator_raises :
  splitlines
    (child_stdout
       (spawn enumerator_down [] ∅
              [cp "subfinder"; cp "-d"; cp "example.com"; cp "-all";
               cp "-silent"] None)) = []
  ∧ subfinder_to_httpx enumerator_down (cp "example.com") (cp "subs.txt") 0
                       false empty_world
    = (Raise (RuntimeError "subfinder failed"),
       World ∅
             [Exec [cp "subfinder"; cp "-d"; cp "example.com"; cp "-all";
                    cp "-silent"] None None 1]).
Proof. split; reflexivity. Qed.

(** ** Rate limits of zero or less *)

Lemma bind_ext {A B} (m : M A) (f g : A → M B) w :
  (∀ a w', f a w' = g a w') → (m ≫= f) w = (m ≫= g) w.
Proof.
  intros Hfg. rewrite !bind_run. destruct (m w) as [[a|e] w']; [|done].
  apply Hfg.
Qed.

Lemma emits_ext {A} P (m m' : M A) :
  (∀ w, m w = m' w) → emits P m' → emits P m.
Proof. intros Heq Hm w. rewrite Heq. apply Hm. Qed.

Lemma range0_single n : 0 < n → range0 n n = [0].
Proof.
  intros Hn. unfold range0. destruct n as [|k]; [lia|]. simpl.
  destruct k; simpl; [done|]. by rewrite Nat.ltb_irrefl.
Qed.

(** [chunked(seq, len(seq))] is the sequence as one chunk, also when it
    is empty. *)
Lemma chunked_length {A} (seq : list A) :
  chunked seq (Z.of_nat (length seq)) = [seq].
Proof.
  unfold chunked. destruct (Z.leb_spec (Z.of_nat (length seq)) 0); [done|].
  cbv zeta. rewrite Nat2Z.id, range0_single by lia. simpl.
  unfold slice. by rewrite drop_0, Nat.sub_0_r, firstn_all.
Qed.

(** With a rate limit of zero or less the size handed to [chunked] is the
    length of the sequence, and the sequence comes back as one chunk. *)
Lemma chunked_whole {A} (seq : list A) (rate_limit : Z) :
  (rate_limit ≤ 0)%Z →
  chunked seq (if (rate_limit >? 0)%Z then rate_limit
               else Z.of_nat (length seq)) = [seq].
Proof.
  intros Hr. destruct (Z.gtb_spec rate_limit 0) as [?|_]; [lia|].
  apply chunked_length.
Qed.

Lemma gtb_nonpositive (rate_limit : Z) :
  (rate_limit ≤ 0)%Z → (rate_limit >? 0)%Z = false.
Proof. intros Hr. destruct (Z.gtb_spec rate_limit 0); [lia | done]. Qed.

Section unbatched_facts.
Context (E : env) (rate_limit : Z).
Hypothesis rate_nonpositive : (rate_limit ≤ 0)%Z.

Lemma subfinder_to_httpx_is_unbatched domain subs_out verbose w :
  subfinder_to_httpx E domain subs_out rate_limit verbose w
  = subfinder_to_httpx_unbatched E domain subs_out verbose w.
Proof using rate_nonpositive.
  unfold subfinder_to_httpx, subfinder_to_httpx_unbatched.
  apply bind_ext. intros proc w1. destruct (negb _); [done|]. cbv zeta.
  destruct (negb (truthy _)); [done|].
  apply bind_ext. intros e w2. apply bind_ext. intros _ w3.
  rewrite (chunked_whole _ rate_limit) by done. cbn [subfinder_to_httpx_loop Nat.eqb negb].
  rewrite !bind_run.
  destruct (run_command _ _ _ _ _ _ w3) as [[proc2|e2] w4]; [|done].
  destruct (negb _); [done|].
  rewrite gtb_nonpositive by done. done.
Qed.

Lemma run_gau_is_unbatched subs_file out_file verbose w :
  run_gau E subs_file out_file rate_limit verbose w
  = run_gau_unbatched E subs_file out_file verbose w.
Proof using rate_nonpositive.
  unfold run_gau, run_gau_unbatched.
  apply bind_ext. intros subs w1. destruct (negb (truthy _)); [done|].
  apply bind_ext. intros e w2. apply bind_ext. intros _ w3. cbv zeta.
  rewrite (chunked_whole _ rate_limit) by done. cbn [run_gau_loop length].
  rewrite !bind_run.
  destruct (run_command _ _ _ _ _ _ w3) as [[proc|e1] w4]; [|done].
  destruct (negb _); [done|].
  rewrite gtb_nonpositive by done. done.
Qed.

Lemma filter_with_gf_uro_httpx_is_unbatched merged_in final_out verbose w :
  filter_with_gf_uro_httpx E merged_in final_out rate_limit verbose w
  = filter_with_gf_uro_httpx_unbatched E merged_in final_out verbose w.
Proof using rate_nonpositive.
  unfold filter_with_gf_uro_httpx, filter_with_gf_uro_httpx_unbatched.
  apply bind_ext. intros lines w1. destruct (negb (truthy _)); [done|].
  cbv zeta. apply bind_ext. intros proc_gf w2. destruct (negb _); [done|].
  destruct (negb (truthy _)); [done|].
  apply bind_ext. intros e w3. apply bind_ext. intros _ w4.
  rewrite (chunked_whole _ rate_limit) by done. cbn [uro_loop].
  rewrite !(bind_run (run_command _ _ _ _ _ _)).
  rewrite (bind_run (_ ≫= _)), (bind_run (run_command _ _ _ _ _ _)).
  destruct (run_command _ _ _ _ _ _ w4) as [[proc_uro|e1] w5]; [|done].
  destruct (negb _); [done|].
  rewrite gtb_nonpositive by done. cbn [when]. rewrite !bind_run.
  cbn [mret M_ret app]. cbv beta iota.
  destruct (negb (truthy _)); [done|].
  rewrite chunked_length. cbn [httpx_loop].
  rewrite !bind_run.
  destruct (run_command _ _ _ _ _ _ w5) as [[proc_httpx|e2] w6]; [|done].
  destruct (negb _); [done|].
  rewrite gtb_nonpositive by done. done.
Qed.
End unbatched_facts.

Section unbatched_traces.
Context (E : env) (P : event → Prop).
Hypothesis P_stderr : ∀ text, P (Stderr text).
Hypothesis P_exec : ∀ argv stdin redirect status,
  P (Exec argv stdin redirect status).

Lemma emits_subfinder_to_httpx_unbatched domain subs_out verbose :
  emits P (subfinder_to_httpx_unbatched E domain subs_out verbose).
Proof using All.
  unfold subfinder_to_httpx_unbatched. repeat emits_step; auto.
Qed.

Lemma emits_run_gau_unbatched subs_file out_file verbose :
  emits P (run_gau_unbatched E subs_file out_file verbose).
Proof using All. unfold run_gau_unbatched. repeat emits_step; auto. Qed.

Lemma emits_filter_with_gf_uro_httpx_unbatched merged_in final_out
    verbose :
  emits P (filter_with_gf_uro_httpx_unbatched E merged_in final_out
                                              verbose).
Proof using All.
  unfold filter_with_gf_uro_httpx_unbatched. repeat emits_step; auto.
Qed.
End unbatched_traces.

Lemma not_sleep_stderr text : ¬ is_sleep (Stderr text).
Proof. by intros [ms ?]. Qed.

Lemma not_sleep_exec argv stdin redirect status :
  ¬ is_sleep (Exec argv stdin redirect status).
Proof. by intros [ms ?]. Qed.

(** C10. With a rate limit of zero or less, negative values included,
    each batching site does what it does with a rate limit of zero: the
    size handed to [chunked] is the length of the input, which comes back
    as one chunk; the stage is the one that feeds the whole input to a
    single child; and no sleep is ever recorded. *)
Theorem nonpositive_rate_limit_is_unbatched (E : env) (rate_limit : Z) :
  (rate_limit ≤ 0)%Z →
  (∀ seq : list str,
      chunked seq (if (rate_limit >? 0)%Z then rate_limit
                   else Z.of_nat (length seq)) = [seq])
  ∧ (∀ domain subs_out verbose w,
      subfinder_to_httpx E domain subs_out rate_limit verbose w
      = subfinder_to_httpx E domain subs_out 0 verbose w
      ∧ subfinder_to_httpx E domain subs_out rate_limit verbose w
        = subfinder_to_httpx_unbatched E domain subs_out verbose w)
  ∧ (∀ subs_file out_file verbose w,
      run_gau E subs_file out_file rate_limit verbose w
      = run_gau E subs_file out_file 0 verbose w
      ∧ run_gau E subs_file out_file rate_limit verbose w
        = run_gau_unbatched E subs_file out_file verbose w)
  ∧ (∀ merged_in final_out verbose w,
      filter_with_gf_uro_httpx E merged_in final_out rate_limit verbose w
      = filter_with_gf_uro_httpx E merged_in final_out 0 verbose w
      ∧ filter_with_gf_uro_httpx E merged_in final_out rate_limit verbose w
        = filter_with_gf_uro_httpx_unbatched E merged_in final_out
                                             verbose w)
  ∧ (∀ domain subs_out verbose,
      emits (λ ev, ¬ is_sleep ev)
            (subfinder_to_httpx E domain subs_out rate_limit verbose))
  ∧ (∀ subs_file out_file verbose,
      emits (λ ev, ¬ is_sleep ev)
            (run_gau E subs_file out_file rate_limit verbose))
  ∧ (∀ merged_in final_out verbose,
      emits (λ ev, ¬ is_sleep ev)
            (filter_with_gf_uro_httpx E merged_in final_out rate_limit
                                      verbose)).
Proof.
  intros Hr. split_and!.
  - intros seq. by apply chunked_whole.
  - intros domain subs_out verbose w.
    rewrite !subfinder_to_httpx_is_unbatched by (done || lia). done.
  - intros subs_file out_file verbose w.
    rewrite !run_gau_is_unbatched by (done || lia). done.
  - intros merged_in final_out verbose w.
    rewrite !filter_with_gf_uro_httpx_is_unbatched by (done || lia). done.
  - intros domain subs_out verbose.
    eapply emits_ext.
    + intros w. by apply subfinder_to_httpx_is_unbatched.
    + apply emits_subfinder_to_httpx_unbatched;
        auto using not_sleep_stderr, not_sleep_exec.
  - intros subs_file out_file verbose.
    eapply emits_ext.
    + intros w. by apply run_gau_is_unbatched.
    + apply emits_run_gau_unbatched;
        auto using not_sleep_stderr, not_sleep_exec.
  - intros merged_in final_out verbose.
    eapply emits_ext.
    + intros w. by apply filter_with_gf_uro_httpx_is_unbatched.
    + apply emits_filter_with_gf_uro_httpx_unbatched;
        auto using not_sleep_stderr, not_sleep_exec.
Qed.

Lemma nonpositive_rate_limit_is_unbatched_witness :
  subfinder_to_httpx two_found (cp "example.com") (cp "subs.txt") (-5)
                     false empty_world
  = subfinder_to_httpx two_found (cp "example.com") (cp "subs.txt") 0
                       false empty_world
  ∧ chunked [cp "a.test"; cp "b.test"] (Z.of_nat 2)
    = [[cp "a.test"; cp "b.test"]].
Proof.
  assert (Hr : (-5 ≤ 0)%Z) by lia.
  destruct (nonpositive_rate_limit_is_unbatched two_found (-5) Hr)
    as (Hchunk & Hsub & _).
  split.
  - apply (Hsub (cp "example.com") (cp "subs.txt") false empty_world).
  - apply (Hchunk [cp "a.test"; cp "b.test"]).
Defined.

Example unbatched_run :
  map program
      (trace (subfinder_to_httpx two_found (cp "example.com")
                (cp "subs.txt") (-5) false empty_world).2)
  = [Some (cp "subfinder"); Some (cp "httpx")]
  ∧ map program
        (trace (subfinder_to_httpx two_found (cp "example.com")
                  (cp "subs.txt") 1 false empty_world).2)
    = [Some (cp "subfinder"); Some (cp "httpx"); None;
       Some (cp "httpx"); None].
Proof. split; reflexivity. Qed.

(* ================================================================== *)
(** * Part III: further properties of the code *)
(* ================================================================== *)

(** ** Deduplication across sources *)

Section unique_preserve_order_append.
Context {A : Type} `{Countable A}.
Implicit Types (l : list A) (seen : gset A).

Lemma fresh_of_filter l : ∀ seen known,
  fresh_of (seen ∪ known) l = filter (λ x, x ∉ seen) (fresh_of known l).
Proof.
  induction l as [|x t IH]; intros seen known; simpl; [done|].
  destruct (decide (x ∈ known)) as [Hk|Hk].
  - rewrite decide_True by set_solver. apply IH.
  - destruct (decide (x ∈ seen)) as [Hs|Hs].
    + rewrite decide_True by set_solver.
      rewrite filter_cons_False by (intros ?; done).
      rewrite <- IH. f_equal. set_solver.
    + rewrite decide_False by set_solver.
      rewrite filter_cons_True by done. f_equal.
      rewrite <- IH. f_equal. set_solver.
Qed.

(** X1. Deduplicating two sequences put end to end keeps the
    deduplicated first sequence as it is and adds, in their order, the
    elements of the deduplicated second one that the first does not
    hold.  In particular the first element of a sequence is kept, and the
    rest is deduplicated with that element removed. *)
Theorem unique_preserve_order_app l1 l2 :
  unique_preserve_order (l1 ++ l2)
  = unique_preserve_order l1
    ++ filter (λ x, x ∉ l1) (unique_preserve_order l2)
  ∧ ∀ x, unique_preserve_order (x :: l2)
         = x :: filter (λ y, y ≠ x) (unique_preserve_order l2).
Proof.
  assert (Happ : ∀ k1 k2 : list A,
            unique_preserve_order (k1 ++ k2)
            = unique_preserve_order k1
              ++ filter (λ x, x ∉ k1) (unique_preserve_order k2)).
  { intros k1 k2. rewrite !upo_fresh_of, fresh_of_app. f_equal.
    rewrite fresh_of_filter. apply list_filter_iff.
    intros x. by rewrite elem_of_list_to_set. }
  split; [apply Happ|].
  intros x. change (x :: l2) with ([x] ++ l2). rewrite Happ.
  unfold unique_preserve_order at 1. simpl.
  rewrite decide_False by set_solver. simpl. f_equal.
  apply list_filter_iff. intros y. set_solver.
Qed.

(** X2. A sequence without repetition is left as it is, and the output
    is never longer than the input. *)
Theorem unique_preserve_order_NoDup_id l :
  (NoDup l → unique_preserve_order l = l)
  ∧ length (unique_preserve_order l) ≤ length l.
Proof.
  split.
  - intros Hnd. rewrite upo_fresh_of. apply fresh_of_fixed; [done|].
    set_solver.
  - rewrite upo_fresh_of. apply sublist_length, fresh_of_sublist.
Qed.
End unique_preserve_order_append.

Lemma unique_preserve_order_NoDup_id_witness :
  unique_preserve_order [3; 1; 2] = [3; 1; 2].
Proof.
  apply (proj1 (unique_preserve_order_NoDup_id [3; 1; 2])).
  repeat (constructor; [set_solver|]). constructor.
Defined.

(** ** The shape of the chunks *)

Lemma range_from_lookup stop step : 0 < step → ∀ fuel start i,
  stop - start ≤ fuel →
  range_from fuel start stop step !! i
  = if start + i * step <? stop then Some (start + i * step) else None.
Proof.
  intros Hstep. induction fuel as [|fuel IH]; intros start i Hfuel; simpl.
  - destruct (Nat.ltb_spec (start + i * step) stop); [lia | done].
  - destruct (Nat.ltb_spec start stop) as [Hlt|Hge].
    + destruct i as [|i]; simpl.
      * rewrite Nat.add_0_r.
        by destruct (Nat.ltb_spec start stop); [|lia].
      * rewrite IH by lia.
        replace (start + step + i * step) with (start + (step + i * step))
          by lia.
        done.
    + destruct (Nat.ltb_spec (start + i * step) stop); [lia | done].
Qed.

Section chunk_shape.
Context {A : Type}.
Implicit Types (seq : list A).

(** X3. For a size of at least one, the chunk of index [i] exists exactly
    when [i * size] is a position of the input, and it is the [size]
    elements from that position on, or those that are left: every chunk
    is non-empty and all but the last hold exactly [size] elements. *)
Theorem chunked_nth seq (size : Z) (i : nat) :
  (1 ≤ size)%Z →
  let n := Z.to_nat size in
  chunked seq size !! i
  = (if i * n <? length seq then Some (take n (drop (i * n) seq)) else None)
  ∧ (i < length (chunked seq size) ↔ i * n < length seq)
  ∧ (∀ chunk, chunked seq size !! i = Some chunk →
       0 < length chunk ≤ n
       ∧ (S i < length (chunked seq size) → length chunk = n)).
Proof.
  intros Hsize n.
  assert (Hn : 0 < n) by (subst n; lia).
  assert (Hnth : ∀ j,
            chunked seq size !! j
            = if j * n <? length seq
              then Some (take n (drop (j * n) seq)) else None).
  { intros j. unfold chunked.
    destruct (Z.leb_spec size 0) as [?|_]; [lia|]. cbv zeta. fold n.
    rewrite list_lookup_fmap. unfold range0.
    rewrite range_from_lookup by lia. simpl.
    destruct (Nat.ltb_spec (j * n) (length seq)); simpl; [|done].
    unfold slice. do 2 f_equal. lia. }
  assert (Hlen : ∀ j, j < length (chunked seq size) ↔ j * n < length seq).
  { intros j. rewrite <- lookup_lt_is_Some, Hnth.
    destruct (Nat.ltb_spec (j * n) (length seq)); split;
      try done; try lia; try (intros _; eauto); try (by intros [? ?]). }
  split_and!; [apply Hnth | apply Hlen |].
  intros chunk. rewrite Hnth.
  destruct (Nat.ltb_spec (i * n) (length seq)) as [Hi|Hi]; [|done].
  intros [= <-]. rewrite length_take, length_drop. split; [lia|].
  intros Hnext%Hlen. simpl in Hnext. lia.
Qed.
End chunk_shape.

Lemma chunked_nth_witness :
  chunked [10; 20; 30; 40; 50] 2 !! 2 = Some [50]
  ∧ (2 < length (chunked [10; 20; 30; 40; 50] 2) ↔ 2 * 2 < 5).
Proof.
  assert (Hsize : (1 ≤ 2)%Z) by lia.
  destruct (chunked_nth [10; 20; 30; 40; 50] 2 2 Hsize) as (Hnth & Hlen & _).
  split; [exact Hnth | exact Hlen].
Defined.

(** ** Letter case and the extension filter *)

Lemma literal_ignorecase_lower_text p c :
  ((p <? 65) || (90 <? p))%N = true →
  literal_ignorecase p (ascii_lower c) = literal_ignorecase p c.
Proof.
  intros Hp. apply orb_true_iff in Hp.
  rewrite N.ltb_lt, N.ltb_lt in Hp.
  unfold literal_ignorecase, ascii_lower.
  destruct ((65 <=? c) && (c <=? 90))%N eqn:Hc; [|done].
  apply andb_true_iff in Hc as [Hc1%N.leb_le Hc2%N.leb_le].
  destruct ((97 <=? p) && (p <=? 122))%N eqn:Hr.
  - apply andb_true_iff in Hr as [Hr1%N.leb_le Hr2%N.leb_le].
    apply eq_true_iff_eq.
    rewrite !orb_true_iff, !andb_true_iff, !orb_true_iff, !N.eqb_eq. lia.
  - apply eq_true_iff_eq. rewrite !N.eqb_eq.
    apply andb_false_iff in Hr. rewrite !N.leb_gt in Hr. lia.
Qed.

Lemma match_literals_lower pat : ∀ s,
  Forall (λ p, ((p <? 65) || (90 <? p))%N = true) pat →
  match_literals pat (map ascii_lower s)
  = map ascii_lower <$> match_literals pat s.
Proof.
  induction pat as [|p pat IH]; intros s Hpat; simpl; [done|].
  inversion_clear Hpat as [|? ? Hp Hrest].
  destruct s as [|c s]; simpl; [done|].
  rewrite literal_ignorecase_lower_text by done.
  destruct (literal_ignorecase p c); [by apply IH | done].
Qed.

Lemma match_tail_lower rest :
  match_tail (map ascii_lower rest) = match_tail rest.
Proof.
  destruct rest as [|c t]; simpl; [done|].
  assert (Ht : truthy (map ascii_lower t) = truthy t) by (by destruct t).
  rewrite Ht. unfold ascii_lower, QMARK, LF.
  destruct ((65 <=? c) && (c <=? 90))%N eqn:Hc; [|done].
  apply andb_true_iff in Hc as [Hc1%N.leb_le Hc2%N.leb_le].
  assert ((c + 32 =? 63)%N = false) as -> by (apply N.eqb_neq; lia).
  assert ((c =? 63)%N = false) as -> by (apply N.eqb_neq; lia).
  assert ((c + 32 =? 10)%N = false) as -> by (apply N.eqb_neq; lia).
  assert ((c =? 10)%N = false) as -> by (apply N.eqb_neq; lia).
  done.
Qed.

Lemma EXCLUDE_EXTS_lowercase e :
  In e EXCLUDE_EXTS →
  Forall (λ p, ((p <? 65) || (90 <? p))%N = true) (cp e).
Proof.
  intros He.
  assert (Hall : forallb (λ e, forallb (λ p, (p <? 65) || (90 <? p))%N
                                       (cp e))
                         EXCLUDE_EXTS = true) by (vm_compute; done).
  rewrite forallb_forall in Hall. specialize (Hall e He).
  rewrite forallb_forall in Hall. apply Forall_forall.
  intros p Hp. apply Hall. by apply list_elem_of_In.
Qed.

Lemma existsb_agree {B} (f g : B → bool) l :
  (∀ x, In x l → f x = g x) → existsb f l = existsb g l.
Proof.
  induction l as [|x l IH]; intros Hfg; simpl; [done|].
  rewrite Hfg by (by left). rewrite IH; [done|].
  intros y Hy. apply Hfg. by right.
Qed.

Lemma match_here_lower s : match_here (map ascii_lower s) = match_here s.
Proof.
  destruct s as [|c t]; [done|]. unfold match_here. cbn [map].
  f_equal.
  - unfold ascii_lower, DOT.
    destruct ((65 <=? c) && (c <=? 90))%N eqn:Hc; [|done].
    apply andb_true_iff in Hc as [Hc1%N.leb_le Hc2%N.leb_le].
    assert ((c + 32 =? 46)%N = false) as -> by (apply N.eqb_neq; lia).
    symmetry. apply N.eqb_neq. lia.
  - apply existsb_agree. intros e He.
    rewrite match_literals_lower by (by apply EXCLUDE_EXTS_lowercase).
    destruct (match_literals (cp e) t) as [rest|]; simpl; [|done].
    apply match_tail_lower.
Qed.

Lemma search_lower url :
  EXCLUDE_EXT_REGEX_search (map ascii_lower url)
  = EXCLUDE_EXT_REGEX_search url.
Proof.
  induction url as [|c t IH]; [done|].
  cbn [map EXCLUDE_EXT_REGEX_search]. rewrite IH. f_equal.
  apply (match_here_lower (c :: t)).
Qed.

(** X4. The extension filter does not see ASCII letter case: two URLs
    that become equal once their ASCII capitals are lowered are both
    excluded or both kept by the pattern. *)
Theorem EXCLUDE_EXT_REGEX_ignores_case (url url' : str) :
  map ascii_lower url = map ascii_lower url' →
  EXCLUDE_EXT_REGEX_search url = EXCLUDE_EXT_REGEX_search url'.
Proof.
  intros Hcase.
  by rewrite <- (search_lower url), <- (search_lower url'), Hcase.
Qed.

Lemma EXCLUDE_EXT_REGEX_ignores_case_witness :
  EXCLUDE_EXT_REGEX_search (cp "https://X.test/Logo.PnG?Size=2")
  = EXCLUDE_EXT_REGEX_search (cp "https://x.test/logo.png?size=2").
Proof.
  apply EXCLUDE_EXT_REGEX_ignores_case. reflexivity.
Defined.

(** ** Writing and reading back *)

Lemma render_lines_app l1 l2 :
  render_lines (l1 ++ l2) = render_lines l1 ++ render_lines l2.
Proof. unfold render_lines. by rewrite map_app, concat_app. Qed.

Lemma append_lines_run path lines w :
  append_lines path lines w
  = match fs w !! path with
    | Some Dir => (Raise (OSError path), w)
    | Some (File content) =>
        (Ok tt, World (<[path := File (content ++ render_lines lines)]>
                         (fs w)) (trace w))
    | None =>
        (Ok tt, World (<[path := File (render_lines lines)]> (fs w))
                      (trace w))
    end.
Proof.
  unfold append_lines, open_for_output. run_M.
  destruct (fs w !! path) as [[content|]|] eqn:Hp; run_M;
    by rewrite ?insert_insert_eq.
Qed.

(** X5. Writing lines and then appending more leaves the file that
    writing all of them at once leaves: each line followed by a line
    feed, in order.  On a directory both fail alike, with nothing
    changed. *)
Theorem write_then_append (path : str) (l1 l2 : list str) (w : world) :
  (write_lines path l1 ≫= λ _, append_lines path l2) w
  = write_lines path (l1 ++ l2) w
  ∧ write_lines path (l1 ++ l2) w
    = match fs w !! path with
      | Some Dir => (Raise (OSError path), w)
      | _ =>
          (Ok tt,
           World (<[path := File (concat (map (λ l, l ++ [LF]) l1)
                                  ++ concat (map (λ l, l ++ [LF]) l2))]>
                    (fs w))
                 (trace w))
      end.
Proof.
  split.
  - rewrite bind_run, !write_lines_run.
    destruct (fs w !! path) as [[content|]|] eqn:Hp; try done;
      rewrite append_lines_run; cbn [fs trace];
      by rewrite lookup_insert_eq, insert_insert_eq, render_lines_app.
  - rewrite write_lines_run, render_lines_app.
    by destruct (fs w !! path) as [[content|]|].
Qed.

(** X6. Lines that are trimmed, non-empty and hold no line end come back
    from [read_lines] as [write_lines] wrote them. *)
Theorem write_lines_read_lines (path : str) (lines : list str)
    (w : world) :
  fs w !! path ≠ Some Dir →
  Forall (λ l, l ≠ [] ∧ strip l = l ∧ (LF ∉ l) ∧ (CR ∉ l)) lines →
  (write_lines path lines ≫= λ _, read_lines path) w
  = (Ok lines,
     World (<[path := File (concat (map (λ l, l ++ [LF]) lines))]> (fs w))
           (trace w)).
Proof.
  intros Hpath Hlines.
  rewrite bind_run, write_lines_run.
  pose proof (stripped_iter_render lines Hlines) as Hread.
  destruct (fs w !! path) as [[content|]|] eqn:Hp; try done;
    rewrite read_lines_run; cbn [fs]; rewrite lookup_insert_eq;
    by rewrite Hread.
Qed.

Lemma write_lines_read_lines_witness :
  (write_lines (cp "subs.txt") [cp "a.test"; cp "b.test"]
   ≫= λ _, read_lines (cp "subs.txt")) empty_world
  = (Ok [cp "a.test"; cp "b.test"],
     World (<[cp "subs.txt" :=
                File (cp "a.test" ++ [LF] ++ cp "b.test" ++ [LF])]> ∅) []).
Proof.
  apply (write_lines_read_lines (cp "subs.txt")
                                [cp "a.test"; cp "b.test"] empty_world).
  - by vm_compute.
  - repeat constructor; try (by vm_compute);
      try (intros Hin; vm_compute in Hin;
           repeat (apply elem_of_cons in Hin as [?|Hin]; [done|]);
           by apply elem_of_nil in Hin).
Defined.

(** ** Stopping at the first failed child *)

Lemma stderr_not_failed ev : is_stderr ev → ¬ failed_child ev.
Proof. intros [text ->] (? & ? & ? & ? & ? & _). done. Qed.

Lemma stdout_not_failed text : ¬ failed_child (Stdout text).
Proof. by intros (? & ? & ? & ? & ? & _). Qed.

Lemma sleep_not_failed ms : ¬ failed_child (Sleep ms).
Proof. by intros (? & ? & ? & ? & ? & _). Qed.

Lemma stopped_extend {A} (r : outcome A) evs0 evs :
  Forall (λ ev, ¬ failed_child ev) evs0 →
  stopped r evs → stopped r (evs0 ++ evs).
Proof.
  intros H0. destruct r as [a|e]; simpl.
  - intros Hevs. by apply Forall_app_2.
  - intros [Hevs|(pre & ev & post & -> & Hpre & Hev & Hpost & ->)].
    + left. by apply Forall_app_2.
    + right. exists (evs0 ++ pre), ev, post.
      split_and!; try done; [by rewrite <- app_assoc|].
      by apply Forall_app_2.
Qed.

Lemma fail_stop_clean {A} (m : M A) :
  emits (λ ev, ¬ failed_child ev) m → fail_stop m.
Proof.
  intros Hm w. destruct (Hm w) as (evs & Ht & Hevs).
  exists evs. split; [done|]. destruct (m w).1; simpl; auto.
Qed.

Lemma fail_stop_bind {A B} (m : M A) (f : A → M B) :
  fail_stop m → (∀ a, fail_stop (f a)) → fail_stop (m ≫= f).
Proof.
  intros Hm Hf w. rewrite bind_run.
  destruct (Hm w) as (evs1 & Ht1 & H1).
  destruct (m w) as [[a|e] w1]; simpl in *.
  - destruct (Hf a w1) as (evs2 & Ht2 & H2).
    exists (evs1 ++ evs2). split.
    + by rewrite Ht2, Ht1, app_trace_assoc.
    + by apply stopped_extend.
  - exists evs1. split; [done|].
    destruct H1 as [?|(pre & ev & post & ? & ? & ? & ? & ?)];
      [by left | right; eauto 10].
Qed.

(** The pattern of every stage: run a child, raise if its status is not
    zero, go on otherwise. *)
Lemma fail_stop_checked {A} E args input_text output_file append verbose
    msg (k : CompletedProcess → M A) :
  (∀ status,
     failure_message (Exec args input_text
                           (redirect_of output_file append) status)
     = msg) →
  (∀ proc, fail_stop (k proc)) →
  fail_stop
    (run_command E args input_text output_file append verbose
     ≫= λ proc, if negb (returncode proc =? 0)%Z
                then raise (RuntimeError msg) else k proc).
Proof.
  intros Hmsg Hk w. rewrite bind_run.
  destruct (run_command_trace E args input_text output_file append
                              verbose w) as (evs0 & Ht0 & H0).
  assert (Hclean : ∀ evs, Forall is_stderr evs →
                          Forall (λ ev, ¬ failed_child ev) evs).
  { intros evs Hevs. eapply Forall_impl; [exact Hevs|].
    apply stderr_not_failed. }
  destruct (run_command _ _ _ _ _ _ w) as [[proc|e] w1]; simpl in *.
  - destruct H0 as (pre & post & -> & Hpre & Hpost).
    destruct (Z.eqb_spec (returncode proc) 0) as [Hzero|Hfail]; simpl.
    + destruct (Hk proc w1) as (evs2 & Ht2 & H2).
      eexists. split; [by rewrite Ht2, Ht0, app_trace_assoc|].
      apply stopped_extend; [|done].
      apply Forall_app_2; [by apply Hclean|]. constructor; [|by apply Hclean].
      intros (? & ? & ? & ? & [= <- <- <- <-] & ?). done.
    + eexists. split; [exact Ht0|]. right.
      eexists pre, _, post. split_and!; [done | by apply Hclean | | done |].
      * eexists _, _, _, _. split; [reflexivity | done].
      * exact (f_equal RuntimeError (eq_sym (Hmsg (returncode proc)))).
  - exists evs0. split; [done|]. left. by apply Hclean.
Qed.

(** A computation that starts no child stops at the first failed
    child. *)
Ltac fail_stop_quiet :=
  apply fail_stop_clean; repeat emits_step;
  auto using stdout_not_failed, sleep_not_failed.

Section fail_stop_stages.
Context (E : env).

Lemma fail_stop_subfinder_to_httpx_loop subs_out rate_limit verbose
    batches :
  ∀ idx, fail_stop (subfinder_to_httpx_loop E subs_out rate_limit verbose
                                            idx batches).
Proof.
  induction batches as [|batch rest IH]; intros idx; simpl.
  - fail_stop_quiet.
  - apply fail_stop_checked; [intros; reflexivity | intros proc2].
    apply fail_stop_bind; [fail_stop_quiet | intros; apply IH].
Qed.

Lemma fail_stop_subfinder_to_httpx domain subs_out rate_limit verbose :
  fail_stop (subfinder_to_httpx E domain subs_out rate_limit verbose).
Proof.
  unfold subfinder_to_httpx.
  apply fail_stop_checked; [intros; reflexivity | intros proc].
  cbv zeta. destruct (negb (truthy _)); [fail_stop_quiet|].
  apply fail_stop_bind; [fail_stop_quiet | intros e].
  apply fail_stop_bind; [fail_stop_quiet | intros _].
  apply fail_stop_bind;
    [apply fail_stop_subfinder_to_httpx_loop | intros _].
  fail_stop_quiet.
Qed.

Lemma fail_stop_run_waymore subs_file out_file verbose :
  fail_stop (run_waymore E subs_file out_file verbose).
Proof.
  unfold run_waymore.
  apply fail_stop_checked; [intros; reflexivity | intros proc].
  fail_stop_quiet.
Qed.

Lemma fail_stop_run_katana subs_file out_file verbose :
  fail_stop (run_katana E subs_file out_file verbose).
Proof.
  unfold run_katana.
  apply fail_stop_checked; [intros; reflexivity | intros proc].
  fail_stop_quiet.
Qed.

Lemma fail_stop_run_knoxnl input_file out_file verbose :
  fail_stop (run_knoxnl E input_file out_file verbose).
Proof.
  unfold run_knoxnl.
  apply fail_stop_checked; [intros; reflexivity | intros proc].
  fail_stop_quiet.
Qed.

Lemma fail_stop_run_gau_loop out_file rate_limit verbose total batches :
  ∀ i, fail_stop (run_gau_loop E out_file rate_limit verbose total i
                               batches).
Proof.
  induction batches as [|batch rest IH]; intros i; simpl.
  - fail_stop_quiet.
  - apply fail_stop_checked; [intros; reflexivity | intros proc].
    apply fail_stop_bind; [fail_stop_quiet | intros; apply IH].
Qed.

Lemma fail_stop_run_gau subs_file out_file rate_limit verbose :
  fail_stop (run_gau E subs_file out_file rate_limit verbose).
Proof.
  unfold run_gau.
  apply fail_stop_bind; [fail_stop_quiet | intros subs].
  destruct (negb (truthy _)); [fail_stop_quiet|].
  apply fail_stop_bind; [fail_stop_quiet | intros e].
  apply fail_stop_bind; [fail_stop_quiet | intros _]. cbv zeta.
  apply fail_stop_bind; [apply fail_stop_run_gau_loop | intros _].
  fail_stop_quiet.
Qed.

Lemma fail_stop_uro_loop rate_limit verbose batches :
  ∀ acc, fail_stop (uro_loop E rate_limit verbose batches acc).
Proof.
  induction batches as [|batch rest IH]; intros acc; simpl.
  - fail_stop_quiet.
  - apply fail_stop_checked; [intros; reflexivity | intros proc].
    apply fail_stop_bind; [fail_stop_quiet | intros; apply IH].
Qed.

Lemma fail_stop_httpx_loop rate_limit verbose batches :
  ∀ acc, fail_stop (httpx_loop E rate_limit verbose batches acc).
Proof.
  induction batches as [|batch rest IH]; intros acc; simpl.
  - fail_stop_quiet.
  - apply fail_stop_checked; [intros; reflexivity | intros proc].
    apply fail_stop_bind; [fail_stop_quiet | intros; apply IH].
Qed.

Lemma fail_stop_filter_with_gf_uro_httpx merged_in final_out rate_limit
    verbose :
  fail_stop (filter_with_gf_uro_httpx E merged_in final_out rate_limit
                                      verbose).
Proof.
  unfold filter_with_gf_uro_httpx.
  apply fail_stop_bind; [fail_stop_quiet | intros lines].
  destruct (negb (truthy _)); [fail_stop_quiet|]. cbv zeta.
  apply fail_stop_checked; [intros; reflexivity | intros proc_gf].
  destruct (negb (truthy _)); [fail_stop_quiet|].
  apply fail_stop_bind; [fail_stop_quiet | intros e].
  apply fail_stop_bind; [fail_stop_quiet | intros _].
  apply fail_stop_bind; [apply fail_stop_uro_loop | intros normalized].
  destruct (negb (truthy _)); [fail_stop_quiet|].
  apply fail_stop_bind; [apply fail_stop_httpx_loop | intros probed].
  fail_stop_quiet.
Qed.

Lemma fail_stop_main args : fail_stop (main E args).
Proof.
  unfold main.
  apply fail_stop_bind.
  { apply fail_stop_clean, emits_emit, stdout_not_failed. }
  intros _. cbv zeta.
  destruct (ensure_tools_exist E _) as [ok missing].
  destruct (negb ok).
  { apply fail_stop_clean. repeat emits_step;
      apply stderr_not_failed; by eexists. }
  apply fail_stop_bind; [fail_stop_quiet | intros _].
  apply fail_stop_bind;
    [apply fail_stop_subfinder_to_httpx | intros [discovered live]].
  apply fail_stop_bind; [fail_stop_quiet | intros _].
  apply fail_stop_bind.
  { destruct (bool_decide _); [|fail_stop_quiet].
    apply fail_stop_bind; [fail_stop_quiet | intros _].
    apply fail_stop_bind; [apply fail_stop_run_waymore | intros n].
    fail_stop_quiet. }
  intros generated1. apply fail_stop_bind.
  { destruct (bool_decide _); [|fail_stop_quiet].
    apply fail_stop_bind; [fail_stop_quiet | intros _].
    apply fail_stop_bind; [apply fail_stop_run_katana | intros n].
    fail_stop_quiet. }
  intros generated2. apply fail_stop_bind.
  { destruct (bool_decide _); [|fail_stop_quiet].
    apply fail_stop_bind; [fail_stop_quiet | intros _].
    apply fail_stop_bind; [apply fail_stop_run_gau | intros n].
    fail_stop_quiet. }
  intros generated3.
  apply fail_stop_bind; [fail_stop_quiet | intros _].
  apply fail_stop_bind; [fail_stop_quiet | intros total].
  apply fail_stop_bind; [fail_stop_quiet | intros _].
  apply fail_stop_bind; [fail_stop_quiet | intros merged]. cbv zeta.
  apply fail_stop_bind; [fail_stop_quiet | intros _].
  apply fail_stop_bind; [fail_stop_quiet | intros _].
  apply fail_stop_bind;
    [apply fail_stop_filter_with_gf_uro_httpx | intros [[[g f] n] l]].
  apply fail_stop_bind; [fail_stop_quiet | intros _].
  apply fail_stop_bind; [fail_stop_quiet | intros _].
  apply fail_stop_bind; [apply fail_stop_run_knoxnl | intros knox].
  apply fail_stop_bind; [fail_stop_quiet | intros _].
  fail_stop_quiet.
Qed.
End fail_stop_stages.

Lemma failed_child_unique pre ev post ev' :
  Forall (λ ev, ¬ failed_child ev) pre →
  Forall is_stderr post →
  ev' ∈ pre ++ ev :: post → failed_child ev' → ev' = ev.
Proof.
  intros Hpre Hpost Hin Hbad.
  apply elem_of_app in Hin as [Hin|Hin].
  - rewrite Forall_forall in Hpre. by destruct (Hpre ev' Hin).
  - apply elem_of_cons in Hin as [?|Hin]; [done|].
    rewrite Forall_forall in Hpost.
    by destruct (stderr_not_failed ev' (Hpost ev' Hin)).
Qed.

(** X7. Whatever stage it belongs to, a child that ends with a non-zero
    status is the last child [main] runs: every child before it ended
    with status zero, only echoes on stderr follow it, and [main] ends
    with the [RuntimeError] whose message names that child. *)
Theorem first_failed_child_is_last (E : env) (args : Namespace)
    (w : world) (evs : list event) (ev : event) :
  trace (main E args w).2 = trace w ++ evs →
  ev ∈ evs → failed_child ev →
  (main E args w).1 = Raise (RuntimeError (failure_message ev))
  ∧ ∃ pre post,
      evs = pre ++ ev :: post
      ∧ Forall (λ ev, ¬ failed_child ev) pre
      ∧ Forall is_stderr post.
Proof.
  intros Ht Hin Hbad.
  destruct (fail_stop_main E args w) as (evs' & Ht' & Hstop).
  rewrite Ht in Ht'. apply app_inv_head in Ht' as <-.
  assert (Hdirty : ¬ Forall (λ ev, ¬ failed_child ev) evs).
  { intros Hclean. rewrite Forall_forall in Hclean.
    by apply (Hclean ev Hin). }
  destruct (main E args w).1 as [[]|e]; simpl in Hstop; [done|].
  destruct Hstop as [?|(pre & ev0 & post & -> & Hpre & Hev0 & Hpost & ->)];
    [done|].
  assert (ev = ev0) as -> by (by eapply failed_child_unique).
  split; [done|]. eauto.
Qed.

Lemma first_failed_child_is_last_witness :
  (main waymore_down (example_args mode_all 0) empty_world).1
  = Raise (RuntimeError "waymore failed").
Proof.
  refine (proj1 (first_failed_child_is_last waymore_down
                   (example_args mode_all 0) empty_world
                   (trace (main waymore_down (example_args mode_all 0)
                                empty_world).2)
                   (Exec [cp "waymore"; cp "-i"; cp "subs.txt"; cp "-mode";
                          cp "U"; cp "-oU"; cp "xss-waymore.txt"]
                         None None 3) _ _ _)).
  - reflexivity.
  - apply list_elem_of_In. vm_compute.
    repeat (first [left; reflexivity | right]).
  - eexists _, _, _, _. split; [reflexivity | done].
Defined.

(** X8. If [main] returns, every child it has run ended with status
    zero. *)
Theorem main_returns_only_on_success (E : env) (args : Namespace)
    (w : world) (evs : list event) :
  trace (main E args w).2 = trace w ++ evs →
  (main E args w).1 = Ok tt →
  Forall (λ ev, ¬ failed_child ev) evs.
Proof.
  intros Ht Hok.
  destruct (fail_stop_main E args w) as (evs' & Ht' & Hstop).
  rewrite Ht in Ht'. apply app_inv_head in Ht' as <-.
  by rewrite Hok in Hstop.
Qed.

Lemma main_returns_only_on_success_witness :
  Forall (λ ev, ¬ failed_child ev)
         (trace (main two_found (example_args mode_waymore 0)
                      empty_world).2).
Proof.
  apply (main_returns_only_on_success two_found
           (example_args mode_waymore 0) empty_world).
  - reflexivity.
  - reflexivity.
Defined.

(** ** The programs a run starts *)

Section stage_children.
Context (E : env) (P : event → Prop) (progs : list str).
Hypothesis P_stderr : ∀ text, P (Stderr text).
Hypothesis P_sleep : ∀ ms, P (Sleep ms).
Hypothesis P_child : ∀ name rest stdin redirect status,
  name ∈ progs → P (Exec (name :: rest) stdin redirect status).

Lemma children_subfinder_to_httpx_loop subs_out rate_limit verbose batches :
  cp "httpx" ∈ progs →
  ∀ idx, emits P (subfinder_to_httpx_loop E subs_out rate_limit verbose
                                          idx batches).
Proof using All.
  intros Hhttpx.
  induction batches as [|batch rest IH]; intros idx; simpl.
  - apply emits_ret.
  - repeat emits_step; auto.
Qed.

Lemma children_subfinder_to_httpx domain subs_out rate_limit verbose :
  cp "subfinder" ∈ progs → cp "httpx" ∈ progs →
  emits P (subfinder_to_httpx E domain subs_out rate_limit verbose).
Proof using All.
  intros Hsubfinder Hhttpx. unfold subfinder_to_httpx.
  repeat emits_step; auto using children_subfinder_to_httpx_loop.
Qed.

Lemma children_run_waymore subs_file out_file verbose :
  cp "waymore" ∈ progs → emits P (run_waymore E subs_file out_file verbose).
Proof using All. intros ?. unfold run_waymore. repeat emits_step; auto. Qed.

Lemma children_run_katana subs_file out_file verbose :
  cp "katana" ∈ progs → emits P (run_katana E subs_file out_file verbose).
Proof using All. intros ?. unfold run_katana. repeat emits_step; auto. Qed.

Lemma children_run_knoxnl input_file out_file verbose :
  cp "knoxnl" ∈ progs → emits P (run_knoxnl E input_file out_file verbose).
Proof using All. intros ?. unfold run_knoxnl. repeat emits_step; auto. Qed.

Lemma children_run_gau_loop out_file rate_limit verbose total batches :
  cp "gau" ∈ progs →
  ∀ i, emits P (run_gau_loop E out_file rate_limit verbose total i batches).
Proof using All.
  intros Hgau.
  induction batches as [|batch rest IH]; intros i; simpl.
  - apply emits_ret.
  - repeat emits_step; auto.
Qed.

Lemma children_run_gau subs_file out_file rate_limit verbose :
  cp "gau" ∈ progs →
  emits P (run_gau E subs_file out_file rate_limit verbose).
Proof using All.
  intros Hgau. unfold run_gau.
  repeat emits_step; auto using children_run_gau_loop.
Qed.

Lemma children_uro_loop rate_limit verbose batches :
  cp "uro" ∈ progs →
  ∀ acc, emits P (uro_loop E rate_limit verbose batches acc).
Proof using All.
  intros Huro.
  induction batches as [|batch rest IH]; intros acc; simpl.
  - apply emits_ret.
  - repeat emits_step; auto.
Qed.

Lemma children_httpx_loop rate_limit verbose batches :
  cp "httpx" ∈ progs →
  ∀ acc, emits P (httpx_loop E rate_limit verbose batches acc).
Proof using All.
  intros Hhttpx.
  induction batches as [|batch rest IH]; intros acc; simpl.
  - apply emits_ret.
  - repeat emits_step; auto.
Qed.

Lemma children_filter_with_gf_uro_httpx merged_in final_out rate_limit
    verbose :
  cp "gf" ∈ progs → cp "uro" ∈ progs → cp "httpx" ∈ progs →
  emits P (filter_with_gf_uro_httpx E merged_in final_out rate_limit
                                    verbose).
Proof using All.
  intros Hgf Huro Hhttpx. unfold filter_with_gf_uro_httpx.
  repeat emits_step; auto using children_uro_loop, children_httpx_loop.
Qed.
End stage_children.

Lemma required_tools_base mode name :
  name ∈ [cp "subfinder"; cp "httpx"; cp "gf"; cp "uro"; cp "knoxnl"] →
  name ∈ required_tools mode.
Proof. intros Hname. unfold required_tools. apply elem_of_app. by left. Qed.

Lemma required_tools_waymore mode :
  bool_decide (mode ∈ [mode_waymore; mode_waymore_katana; mode_all]) = true →
  cp "waymore" ∈ required_tools mode.
Proof.
  intros Hm. unfold required_tools. rewrite Hm.
  rewrite !elem_of_app. right. left. by left.
Qed.

Lemma required_tools_katana mode :
  bool_decide (mode ∈ [mode_waymore_katana; mode_all]) = true →
  cp "katana" ∈ required_tools mode.
Proof.
  intros Hm. unfold required_tools. rewrite Hm.
  rewrite !elem_of_app. right. right. left. by left.
Qed.

Lemma required_tools_gau mode :
  bool_decide (mode = mode_all) = true → cp "gau" ∈ required_tools mode.
Proof.
  intros Hm. unfold required_tools. rewrite Hm.
  rewrite !elem_of_app. right. right. right. by left.
Qed.

(** What [main] emits satisfies whatever holds of the writes to the two
    streams, of sleeps, and of the children whose program is required
    by the mode once the preflight check has passed. *)
Lemma emits_main E args (P : event → Prop) :
  (∀ text, P (Stdout text)) →
  (∀ text, P (Stderr text)) →
  (∀ ms, P (Sleep ms)) →
  ((ensure_tools_exist E (required_tools (arg_mode args))).1 = true →
   ∀ name rest stdin redirect status,
     name ∈ required_tools (arg_mode args) →
     P (Exec (name :: rest) stdin redirect status)) →
  emits P (main E args).
Proof.
  intros Hstdout Hstderr Hsleep Hchild. unfold main.
  apply emits_bind; [by apply emits_emit|]. intros _. cbv zeta.
  destruct (ensure_tools_exist E _) as [ok missing].
  destruct ok; cbn [negb]; [|repeat emits_step; auto].
  specialize (Hchild eq_refl).
  assert (Hbase : ∀ name,
            name ∈ [cp "subfinder"; cp "httpx"; cp "gf"; cp "uro";
                    cp "knoxnl"] →
            name ∈ required_tools (arg_mode args))
    by (intros; by apply required_tools_base).
  apply emits_bind; [by apply emits_emit|]. intros _.
  apply emits_bind.
  { apply (children_subfinder_to_httpx E P (required_tools (arg_mode args)));
      auto; apply Hbase; set_solver. }
  intros [discovered live].
  apply emits_bind; [by apply emits_emit|]. intros _.
  apply emits_bind.
  { destruct (bool_decide _) eqn:Hm; [|apply emits_ret].
    repeat first
      [ apply (children_run_waymore E P (required_tools (arg_mode args)));
        auto using required_tools_waymore
      | emits_step ]; auto. }
  intros generated1. apply emits_bind.
  { destruct (bool_decide _) eqn:Hm; [|apply emits_ret].
    repeat first
      [ apply (children_run_katana E P (required_tools (arg_mode args)));
        auto using required_tools_katana
      | emits_step ]; auto. }
  intros generated2. apply emits_bind.
  { destruct (bool_decide _) eqn:Hm; [|apply emits_ret].
    repeat first
      [ apply (children_run_gau E P (required_tools (arg_mode args)));
        auto using required_tools_gau
      | emits_step ]; auto. }
  intros generated3.
  repeat first
    [ apply (children_filter_with_gf_uro_httpx E P
               (required_tools (arg_mode args)));
      auto; try (apply Hbase; set_solver)
    | apply (children_run_knoxnl E P (required_tools (arg_mode args)));
      auto; try (apply Hbase; set_solver)
    | emits_step ]; auto.
Qed.

(** X9. Every program [main] starts is one of the tools required by the
    mode, and the preflight check has resolved it on the execution
    path. *)
Theorem main_runs_required_tools_only (E : env) (args : Namespace)
    (w : world) (evs : list event) (ev : event) (name : str) :
  trace (main E args w).2 = trace w ++ evs →
  ev ∈ evs → program ev = Some name →
  name ∈ required_tools (arg_mode args) ∧ is_Some (which E name).
Proof.
  intros Ht Hin Hprog.
  pose (P := λ ev : event, ∀ name,
          program ev = Some name →
          name ∈ required_tools (arg_mode args) ∧ is_Some (which E name)).
  assert (Hmain : emits P (main E args)).
  { apply emits_main; try (by intros ? ? ?).
    intros Hok name' rest stdin redirect status Hreq name'' [= <-].
    split; [done|].
    apply ensure_tools_exist_ok in Hok.
    destruct (which E name') as [path|] eqn:Hwhich; [by eexists|].
    assert (Hmiss : name' ∈ (ensure_tools_exist E
                               (required_tools (arg_mode args))).2)
      by (by apply ensure_tools_exist_missing).
    rewrite Hok in Hmiss. by apply elem_of_nil in Hmiss. }
  destruct (Hmain w) as (evs' & Ht' & Hall).
  rewrite Ht in Ht'. apply app_inv_head in Ht' as <-.
  rewrite Forall_forall in Hall. by apply (Hall ev Hin).
Qed.

Lemma main_runs_required_tools_only_witness :
  cp "waymore" ∈ required_tools mode_waymore
  ∧ is_Some (which two_found (cp "waymore")).
Proof.
  refine (main_runs_required_tools_only two_found
            (example_args mode_waymore 0) empty_world
            (trace (main two_found (example_args mode_waymore 0)
                         empty_world).2)
            (Exec [cp "waymore"; cp "-i"; cp "subs.txt"; cp "-mode";
                   cp "U"; cp "-oU"; cp "xss-waymore.txt"] None None 0)
            (cp "waymore") _ _ _).
  - reflexivity.
  - apply list_elem_of_In. vm_compute.
    repeat (first [left; reflexivity | right]).
  - reflexivity.
Defined.

(** X10. The mode selects the history collectors: in mode [waymore]
    neither [katana] nor [gau] is ever started, in mode [waymore-katana]
    [gau] is never started. *)
Theorem mode_selects_collectors (E : env) (args : Namespace) (w : world)
    (evs : list event) (ev : event) :
  trace (main E args w).2 = trace w ++ evs →
  ev ∈ evs →
  (arg_mode args = mode_waymore →
   program ev ≠ Some (cp "katana") ∧ program ev ≠ Some (cp "gau"))
  ∧ (arg_mode args = mode_waymore_katana →
     program ev ≠ Some (cp "gau")).
Proof.
  intros Ht Hin.
  pose (P := λ ev : event, ∀ name,
          program ev = Some name → name ∈ required_tools (arg_mode args)).
  assert (Hmain : emits P (main E args)).
  { apply emits_main; try (by intros ? ? ?).
    by intros _ name' rest stdin redirect status Hreq name'' [= <-]. }
  destruct (Hmain w) as (evs' & Ht' & Hall).
  rewrite Ht in Ht'. apply app_inv_head in Ht' as <-.
  rewrite Forall_forall in Hall. specialize (Hall ev Hin).
  unfold P in Hall. clear P Hmain.
  split.
  - intros Hmode. rewrite Hmode in Hall.
    split; intros Hname; specialize (Hall _ Hname);
      apply list_elem_of_In in Hall; vm_compute in Hall;
      intuition discriminate.
  - intros Hmode. rewrite Hmode in Hall.
    intros Hname; specialize (Hall _ Hname);
      apply list_elem_of_In in Hall; vm_compute in Hall;
      intuition discriminate.
Qed.

Lemma mode_selects_collectors_witness :
  Forall (λ ev, program ev ≠ Some (cp "katana")
                ∧ program ev ≠ Some (cp "gau"))
         (trace (main two_found (example_args mode_waymore 0)
                      empty_world).2).
Proof.
  apply Forall_forall. intros ev Hin.
  apply (proj1 (mode_selects_collectors two_found
                  (example_args mode_waymore 0) empty_world
                  (trace (main two_found (example_args mode_waymore 0)
                               empty_world).2) ev eq_refl Hin)).
  reflexivity.
Defined.

(** ** The order of the stages *)

Lemma program_None_stage ev : program ev = None → stage_of ev = None.
Proof.
  destruct ev as [argv stdin redirect status| | |]; try done.
  destruct argv as [|name rest]; [|done]. intros _. reflexivity.
Qed.

Lemma omap_stage_quiet evs :
  Forall (λ ev, program ev = None) evs → omap stage_of evs = [].
Proof.
  induction 1 as [|ev evs Hev _ IH]; [done|]. simpl.
  by rewrite (program_None_stage ev Hev).
Qed.

Lemma omap_stage_single ev k :
  stage_of ev = Some k → omap stage_of [ev] = [k].
Proof. intros Hk. cbn. by rewrite Hk. Qed.

Lemma staged_quiet {A} lo hi (m : M A) :
  emits (λ ev, program ev = None) m → staged lo hi m.
Proof.
  intros Hm w. destruct (Hm w) as (evs & Ht & Hevs).
  exists evs. rewrite (omap_stage_quiet evs Hevs).
  split_and!; [done| |constructor|constructor].
  eapply Forall_impl; [exact Hevs|]. intros ev -> [? ?]. done.
Qed.

Lemma staged_weaken {A} lo hi lo' hi' (m : M A) :
  lo' ≤ lo → hi ≤ hi' → staged lo hi m → staged lo' hi' m.
Proof.
  intros Hlo Hhi Hm w. destruct (Hm w) as (evs & Ht & Hall & Hin & Hs).
  exists evs. split_and!; try done.
  eapply Forall_impl; [exact Hin|]. simpl. lia.
Qed.

Lemma staged_bind {A B} lo mid hi (m : M A) (f : A → M B) :
  lo ≤ mid → mid ≤ hi →
  staged lo mid m → (∀ a, staged mid hi (f a)) → staged lo hi (m ≫= f).
Proof.
  intros Hlo Hhi Hm Hf w. rewrite bind_run.
  destruct (Hm w) as (evs1 & Ht1 & Hall1 & Hin1 & Hs1).
  destruct (m w) as [[a|e] w1]; simpl in *.
  - destruct (Hf a w1) as (evs2 & Ht2 & Hall2 & Hin2 & Hs2).
    exists (evs1 ++ evs2). rewrite omap_app. split_and!.
    + by rewrite Ht2, Ht1, app_trace_assoc.
    + by apply Forall_app_2.
    + apply Forall_app_2.
      * eapply Forall_impl; [exact Hin1|]. simpl. lia.
      * eapply Forall_impl; [exact Hin2|]. simpl. lia.
    + apply StronglySorted_app_2; [|done|done].
      intros k1 k2 Hk1 Hk2. rewrite Forall_forall in Hin1, Hin2.
      specialize (Hin1 k1 Hk1). specialize (Hin2 k2 Hk2). lia.
  - exists evs1. split_and!; try done.
    eapply Forall_impl; [exact Hin1|]. simpl. lia.
Qed.

Lemma staged_run_command E args input_text output_file append verbose k :
  (∀ status,
     stage_of (Exec args input_text (redirect_of output_file append) status)
     = Some k) →
  staged k k (run_command E args input_text output_file append verbose).
Proof.
  intros Hk w.
  destruct (run_command_trace E args input_text output_file append
                              verbose w) as (evs & Ht & Hevs).
  assert (Hquiet : ∀ l, Forall is_stderr l →
                        Forall (λ ev, program ev = None) l).
  { intros l Hl. eapply Forall_impl; [exact Hl|]. by intros ev [text ->]. }
  exists evs. split; [done|].
  destruct (run_command _ _ _ _ _ _ w).1 as [proc|e].
  - destruct Hevs as (pre & post & -> & Hpre & Hpost).
    rewrite !omap_app.
    rewrite (omap_stage_single _ k) by apply Hk.
    rewrite (omap_stage_quiet pre), (omap_stage_quiet post) by auto.
    cbn [app]. split_and!.
    + apply Forall_app_2; [|constructor].
      * eapply Forall_impl; [exact (Hquiet _ Hpre)|].
        intros ev -> [? ?]. done.
      * intros _. rewrite Hk. by eexists.
      * eapply Forall_impl; [exact (Hquiet _ Hpost)|].
        intros ev -> [? ?]. done.
    + repeat constructor.
    + repeat constructor.
  - rewrite (omap_stage_quiet evs) by auto.
    split_and!; [|constructor|constructor].
    eapply Forall_impl; [exact (Hquiet _ Hevs)|]. intros ev -> [? ?]. done.
Qed.

(** A computation that starts no child has its place anywhere. *)
Ltac staged_quiet :=
  apply staged_quiet; repeat emits_step; auto.

(** A stage of the shape "run a child, raise on failure, go on without
    starting another". *)
Ltac staged_single :=
  eapply (staged_bind _ _ _); [| |apply staged_run_command; intros;
                                   reflexivity|intros; staged_quiet];
  lia.

Section stage_order.
Context (E : env).

Lemma staged_subfinder_to_httpx_loop subs_out rate_limit verbose batches :
  ∀ idx, staged 1 1 (subfinder_to_httpx_loop E subs_out rate_limit verbose
                                             idx batches).
Proof.
  induction batches as [|batch rest IH]; intros idx; simpl.
  - staged_quiet.
  - apply (staged_bind 1 1 1); [lia | lia | |].
    + apply staged_run_command. intros. reflexivity.
    + intros proc2. destruct (negb _); [staged_quiet|].
      apply (staged_bind 1 1 1); [lia | lia | staged_quiet |].
      intros _. apply IH.
Qed.

Lemma staged_subfinder_to_httpx domain subs_out rate_limit verbose :
  staged 0 1 (subfinder_to_httpx E domain subs_out rate_limit verbose).
Proof.
  unfold subfinder_to_httpx.
  apply (staged_bind 0 0 1); [lia | lia | |].
  { apply staged_run_command. intros. reflexivity. }
  intros proc. destruct (negb _); [staged_quiet|]. cbv zeta.
  destruct (negb (truthy _)); [staged_quiet|].
  apply (staged_bind 0 0 1); [lia | lia | staged_quiet |]. intros e.
  apply (staged_bind 0 0 1); [lia | lia | staged_quiet |]. intros _.
  apply (staged_bind 0 1 1); [lia | lia | |].
  { eapply staged_weaken; [| |apply staged_subfinder_to_httpx_loop]; lia. }
  intros _. staged_quiet.
Qed.

Lemma staged_run_waymore subs_file out_file verbose :
  staged 2 2 (run_waymore E subs_file out_file verbose).
Proof. unfold run_waymore. staged_single. Qed.

Lemma staged_run_katana subs_file out_file verbose :
  staged 3 3 (run_katana E subs_file out_file verbose).
Proof. unfold run_katana. staged_single. Qed.

Lemma staged_run_knoxnl input_file out_file verbose :
  staged 8 8 (run_knoxnl E input_file out_file verbose).
Proof. unfold run_knoxnl. staged_single. Qed.

Lemma staged_run_gau_loop out_file rate_limit verbose total batches :
  ∀ i, staged 4 4 (run_gau_loop E out_file rate_limit verbose total i
                                batches).
Proof.
  induction batches as [|batch rest IH]; intros i; simpl.
  - staged_quiet.
  - apply (staged_bind 4 4 4); [lia | lia | |].
    + apply staged_run_command. intros. reflexivity.
    + intros proc. destruct (negb _); [staged_quiet|].
      apply (staged_bind 4 4 4); [lia | lia | staged_quiet |].
      intros _. apply IH.
Qed.

Lemma staged_run_gau subs_file out_file rate_limit verbose :
  staged 4 4 (run_gau E subs_file out_file rate_limit verbose).
Proof.
  unfold run_gau.
  apply (staged_bind 4 4 4); [lia | lia | staged_quiet |]. intros subs.
  destruct (negb (truthy _)); [staged_quiet|].
  apply (staged_bind 4 4 4); [lia | lia | staged_quiet |]. intros e.
  apply (staged_bind 4 4 4); [lia | lia | staged_quiet |]. intros _.
  cbv zeta.
  apply (staged_bind 4 4 4); [lia | lia | apply staged_run_gau_loop |].
  intros _. staged_quiet.
Qed.

Lemma staged_uro_loop rate_limit verbose batches :
  ∀ acc, staged 6 6 (uro_loop E rate_limit verbose batches acc).
Proof.
  induction batches as [|batch rest IH]; intros acc; simpl.
  - staged_quiet.
  - apply (staged_bind 6 6 6); [lia | lia | |].
    + apply staged_run_command. intros. reflexivity.
    + intros proc. destruct (negb _); [staged_quiet|].
      apply (staged_bind 6 6 6); [lia | lia | staged_quiet |].
      intros _. apply IH.
Qed.

Lemma staged_httpx_loop rate_limit verbose batches :
  ∀ acc, staged 7 7 (httpx_loop E rate_limit verbose batches acc).
Proof.
  induction batches as [|batch rest IH]; intros acc; simpl.
  - staged_quiet.
  - apply (staged_bind 7 7 7); [lia | lia | |].
    + apply staged_run_command. intros. reflexivity.
    + intros proc. destruct (negb _); [staged_quiet|].
      apply (staged_bind 7 7 7); [lia | lia | staged_quiet |].
      intros _. apply IH.
Qed.

Lemma staged_filter_with_gf_uro_httpx merged_in final_out rate_limit
    verbose :
  staged 5 7 (filter_with_gf_uro_httpx E merged_in final_out rate_limit
                                       verbose).
Proof.
  unfold filter_with_gf_uro_httpx.
  apply (staged_bind 5 5 7); [lia | lia | staged_quiet |]. intros lines.
  destruct (negb (truthy _)); [staged_quiet|]. cbv zeta.
  apply (staged_bind 5 5 7); [lia | lia | |].
  { apply staged_run_command. intros. reflexivity. }
  intros proc_gf. destruct (negb _); [staged_quiet|].
  destruct (negb (truthy _)); [staged_quiet|].
  apply (staged_bind 5 5 7); [lia | lia | staged_quiet |]. intros e.
  apply (staged_bind 5 5 7); [lia | lia | staged_quiet |]. intros _.
  apply (staged_bind 5 6 7); [lia | lia | |].
  { eapply staged_weaken; [| |apply staged_uro_loop]; lia. }
  intros normalized. destruct (negb (truthy _)); [staged_quiet|].
  apply (staged_bind 6 7 7); [lia | lia | |].
  { eapply staged_weaken; [| |apply staged_httpx_loop]; lia. }
  intros probed. staged_quiet.
Qed.

Lemma staged_main args : staged 0 8 (main E args).
Proof.
  unfold main.
  apply (staged_bind 0 0 8); [lia | lia | |].
  { apply staged_quiet, emits_emit. reflexivity. }
  intros _. cbv zeta.
  destruct (ensure_tools_exist E _) as [ok missing].
  destruct (negb ok); [staged_quiet|].
  apply (staged_bind 0 0 8); [lia | lia | staged_quiet |]. intros _.
  apply (staged_bind 0 1 8); [lia | lia | apply staged_subfinder_to_httpx |].
  intros [discovered live].
  apply (staged_bind 1 1 8); [lia | lia | staged_quiet |]. intros _.
  apply (staged_bind 1 2 8); [lia | lia | |].
  { destruct (bool_decide _); [|staged_quiet].
    apply (staged_bind 1 1 2); [lia | lia | staged_quiet |]. intros _.
    apply (staged_bind 1 2 2); [lia | lia | |].
    { eapply staged_weaken; [| |apply staged_run_waymore]; lia. }
    intros n. staged_quiet. }
  intros generated1.
  apply (staged_bind 2 3 8); [lia | lia | |].
  { destruct (bool_decide _); [|staged_quiet].
    apply (staged_bind 2 2 3); [lia | lia | staged_quiet |]. intros _.
    apply (staged_bind 2 3 3); [lia | lia | |].
    { eapply staged_weaken; [| |apply staged_run_katana]; lia. }
    intros n. staged_quiet. }
  intros generated2.
  apply (staged_bind 3 4 8); [lia | lia | |].
  { destruct (bool_decide _); [|staged_quiet].
    apply (staged_bind 3 3 4); [lia | lia | staged_quiet |]. intros _.
    apply (staged_bind 3 4 4); [lia | lia | |].
    { eapply staged_weaken; [| |apply staged_run_gau]; lia. }
    intros n. staged_quiet. }
  intros generated3.
  apply (staged_bind 4 4 8); [lia | lia | staged_quiet |]. intros _.
  apply (staged_bind 4 4 8); [lia | lia | staged_quiet |]. intros total.
  apply (staged_bind 4 4 8); [lia | lia | staged_quiet |]. intros _.
  apply (staged_bind 4 4 8); [lia | lia | staged_quiet |]. intros merged.
  cbv zeta.
  apply (staged_bind 4 4 8); [lia | lia | staged_quiet |]. intros _.
  apply (staged_bind 4 4 8); [lia | lia | staged_quiet |]. intros _.
  apply (staged_bind 4 7 8); [lia | lia | |].
  { eapply staged_weaken; [| |apply staged_filter_with_gf_uro_httpx]; lia. }
  intros [[[g f] n] l].
  apply (staged_bind 7 7 8); [lia | lia | staged_quiet |]. intros _.
  apply (staged_bind 7 7 8); [lia | lia | staged_quiet |]. intros _.
  apply (staged_bind 7 8 8); [lia | lia | |].
  { eapply staged_weaken; [| |apply staged_run_knoxnl]; lia. }
  intros knox. staged_quiet.
Qed.
End stage_order.

(** X11. The children of a run start in the order of the pipeline: the
    enumerator, the prober of the subdomains, [waymore], [katana], [gau],
    the pattern matcher, the normaliser, the prober of the URLs, the
    scanner; no child of an earlier stage starts after one of a later
    stage, and every child belongs to one of these stages. *)
Theorem main_stages_in_order (E : env) (args : Namespace) (w : world)
    (evs : list event) :
  trace (main E args w).2 = trace w ++ evs →
  StronglySorted le (omap stage_of evs)
  ∧ Forall (λ ev, is_Some (program ev) → is_Some (stage_of ev)) evs.
Proof.
  intros Ht.
  destruct (staged_main E args w) as (evs' & Ht' & Hall & _ & Hsorted).
  rewrite Ht in Ht'. by apply app_inv_head in Ht' as <-.
Qed.

Lemma main_stages_in_order_witness :
  omap stage_of
       (trace (main two_found (example_args mode_all 1) empty_world).2)
  = [0; 1; 1; 2; 3; 4; 4; 8]
  ∧ StronglySorted le
      (omap stage_of
         (trace (main two_found (example_args mode_all 1)
                      empty_world).2)).
Proof.
  split; [reflexivity|].
  apply (main_stages_in_order two_found (example_args mode_all 1)
                              empty_world).
  reflexivity.
Defined.

(** ** What the stages leave behind *)

Lemma ensures_bind {A B} (Q : B → world → Prop) (m : M A) (f : A → M B) :
  (∀ a, ensures Q (f a)) → ensures Q (m ≫= f).
Proof.
  intros Hf w b w'. rewrite bind_run.
  destruct (m w) as [[a|e] w1]; [|done]. apply Hf.
Qed.

Lemma ensures_raise {A} (Q : A → world → Prop) e : ensures Q (raise e).
Proof. by intros w a w'. Qed.

Lemma ensures_write_ret {A} (Q : A → world → Prop) path lines (v : A) :
  (∀ f t, Q v (World (<[path := File (render_lines lines)]> f) t)) →
  ensures Q (write_lines path lines ≫= λ _, mret v).
Proof.
  intros HQ w a w'. rewrite bind_run, write_lines_run.
  destruct (fs w !! path) as [[content|]|]; try done;
    intros [= <- <-]; apply HQ.
Qed.

Lemma nonblank_not_blank lines :
  Forall (λ x, strip x ≠ []) (unique_preserve_order (nonblank lines)).
Proof.
  apply Forall_forall. intros x Hx.
  apply (proj1 (unique_preserve_order_elem _ _)) in Hx.
  unfold nonblank in Hx.
  apply list_elem_of_In, filter_In in Hx as [_ Hx].
  by apply truthy_nonempty.
Qed.

Lemma structural_filter_length gf_lines :
  length (structural_filter gf_lines) ≤ length gf_lines.
Proof.
  unfold structural_filter. induction gf_lines as [|u l IH]; simpl; [done|].
  destruct (_ && _); simpl; lia.
Qed.

(** X12. Whenever [filter_with_gf_uro_httpx] returns, the file it
    leaves at [final_out] holds, each followed by a line feed, lines
    without repetition none of which is blank; the last count it returns
    is their number, and the second count is at most the first. *)
Theorem filter_with_gf_uro_httpx_leaves_unique_lines (E : env)
    (merged_in final_out : str) (rate_limit : Z) (verbose : bool)
    (w w' : world) (gf_count filtered_count normalized_count live : nat) :
  filter_with_gf_uro_httpx E merged_in final_out rate_limit verbose w
  = (Ok (gf_count, filtered_count, normalized_count, live), w') →
  filtered_count ≤ gf_count
  ∧ ∃ lines,
      fs w' !! final_out
      = Some (File (concat (map (λ x, x ++ [LF]) lines)))
      ∧ NoDup lines
      ∧ Forall (λ x, strip x ≠ []) lines
      ∧ live = length lines.
Proof.
  pose (Q := λ (counts : nat * nat * nat * nat) (w1 : world),
          counts.1.1.2 ≤ counts.1.1.1
          ∧ ∃ lines,
              fs w1 !! final_out
              = Some (File (concat (map (λ x, x ++ [LF]) lines)))
              ∧ NoDup lines
              ∧ Forall (λ x, strip x ≠ []) lines
              ∧ counts.2 = length lines).
  assert (Hempty : ∀ g f n, f ≤ g →
            ensures Q (write_lines final_out []
                       ≫= λ _, mret (g, f, n, 0))).
  { intros g f n Hfg. apply ensures_write_ret. intros fs0 t.
    split; [done|]. exists []. cbn [fs].
    rewrite lookup_insert_eq. split_and!; [done | constructor | done | done]. }
  assert (Hall : ensures Q (filter_with_gf_uro_httpx E merged_in final_out
                              rate_limit verbose)).
  { unfold filter_with_gf_uro_httpx.
    apply ensures_bind. intros lines.
    destruct (negb (truthy _)); [by apply Hempty|]. cbv zeta.
    apply ensures_bind. intros proc_gf.
    destruct (negb _); [apply ensures_raise|].
    destruct (negb (truthy _)); [apply Hempty; lia|].
    apply ensures_bind. intros e. apply ensures_bind. intros _.
    apply ensures_bind. intros normalized.
    destruct (negb (truthy _));
      [apply Hempty, structural_filter_length|].
    apply ensures_bind. intros probed.
    apply ensures_write_ret. intros fs0 t. split.
    - apply structural_filter_length.
    - eexists. cbn [fs]. rewrite lookup_insert_eq.
      split_and!; [reflexivity | | apply nonblank_not_blank | done].
      rewrite upo_fresh_of. apply fresh_of_NoDup. }
  intros Hrun. apply (Hall w _ w' Hrun).
Qed.

Lemma filter_with_gf_uro_httpx_leaves_unique_lines_witness :
  ∃ lines,
    fs (filter_with_gf_uro_httpx two_found (cp "xss.txt") (cp "xss.txt") 0
          false
          (World {[ cp "xss.txt" :=
                      File (cp "http://a.test/?q=1" ++ [LF]
                            ++ cp "http://a.test/?q=1" ++ [LF]
                            ++ cp "http://a.test/x.png?q=1" ++ [LF]) ]}
                 [])).2
    !! cp "xss.txt"
    = Some (File (concat (map (λ x, x ++ [LF]) lines)))
    ∧ NoDup lines ∧ 1 = length lines.
Proof.
  destruct (filter_with_gf_uro_httpx_leaves_unique_lines two_found
              (cp "xss.txt") (cp "xss.txt") 0 false
              (World {[ cp "xss.txt" :=
                          File (cp "http://a.test/?q=1" ++ [LF]
                                ++ cp "http://a.test/?q=1" ++ [LF]
                                ++ cp "http://a.test/x.png?q=1" ++ [LF]) ]}
                     [])
              (filter_with_gf_uro_httpx two_found (cp "xss.txt")
                 (cp "xss.txt") 0 false
                 (World {[ cp "xss.txt" :=
                             File (cp "http://a.test/?q=1" ++ [LF]
                                   ++ cp "http://a.test/?q=1" ++ [LF]
                                   ++ cp "http://a.test/x.png?q=1"
                                   ++ [LF]) ]} [])).2
              2 1 1 1)
    as (_ & lines & Hfile & Hnd & _ & Hlen).
  - reflexivity.
  - exists lines. split_and!; done.
Defined.

(** X13. A stage whose input file holds no line starts no child: [run_gau]
    leaves an empty output file and returns 0, and
    [filter_with_gf_uro_httpx] leaves an empty output file and returns
    four zeros; nothing is added to the trace. *)
Theorem empty_input_starts_no_child (E : env) (input output : str)
    (rate_limit : Z) (verbose : bool) (w : world) :
  lines_of (fs w) input = [] →
  fs w !! input ≠ Some Dir →
  fs w !! output ≠ Some Dir →
  run_gau E input output rate_limit verbose w
  = (Ok 0, World (<[output := File []]> (fs w)) (trace w))
  ∧ filter_with_gf_uro_httpx E input output rate_limit verbose w
    = (Ok (0, 0, 0, 0), World (<[output := File []]> (fs w)) (trace w)).
Proof.
  intros Hlines Hin Hout.
  assert (Hread : read_lines input w = (Ok [], w)).
  { rewrite read_lines_run. unfold lines_of in Hlines.
    destruct (fs w !! input) as [[content|]|]; try done.
    by rewrite Hlines. }
  assert (Hwrite : ∀ A (v : A),
            (write_lines output [] ≫= λ _, mret v) w
            = (Ok v, World (<[output := File []]> (fs w)) (trace w))).
  { intros A v. rewrite bind_run, write_lines_run.
    by destruct (fs w !! output) as [[content|]|]. }
  split.
  - unfold run_gau. rewrite bind_run, Hread. cbn [truthy negb].
    apply Hwrite.
  - unfold filter_with_gf_uro_httpx. rewrite bind_run, Hread.
    cbn [truthy negb]. apply Hwrite.
Qed.

Lemma empty_input_starts_no_child_witness :
  run_gau two_found (cp "subs.txt") (cp "xss-gau.txt") 3 true
          (World {[ cp "subs.txt" := File [32%N; LF; LF] ]} [])
  = (Ok 0,
     World (<[cp "xss-gau.txt" := File []]>
              {[ cp "subs.txt" := File [32%N; LF; LF] ]}) []).
Proof.
  refine (proj1 (empty_input_starts_no_child two_found (cp "subs.txt")
                   (cp "xss-gau.txt") 3 true
                   (World {[ cp "subs.txt" := File [32%N; LF; LF] ]} [])
                   _ _ _)).
  - reflexivity.
  - by vm_compute.
  - by vm_compute.
Defined.

(** X14. [run_command] never raises because of the exit status: when it
    raises, its output path names a directory and the error is the
    [OSError] for that path; when it returns, the status it returns is
    the status of the child recorded in the trace, zero or not. *)
Theorem run_command_raises_only_on_directory (E : env) (args : list str)
    (input_text output_file : option str) (append verbose : bool)
    (w : world) :
  match (run_command E args input_text output_file append verbose w).1 with
  | Raise e =>
      ∃ path, output_file = Some path ∧ fs w !! path = Some Dir
              ∧ e = OSError path
  | Ok proc =>
      (∀ path, output_file = Some path → fs w !! path ≠ Some Dir)
      ∧ Exec args input_text (redirect_of output_file append)
             (returncode proc)
        ∈ trace (run_command E args input_text output_file append verbose
                             w).2
      ∧ (stdout proc = None ↔ is_Some output_file)
  end.
Proof.
  unfold run_command, open_for_output, redirect_of.
  destruct verbose, output_file as [path|]; run_M;
    try (destruct (fs w !! path) as [[content|]|] eqn:Hp; run_M;
         try (destruct append; run_M));
    try (destruct (truthy (child_stderr _)); run_M);
    try (by eexists);
    (split_and!;
     [ intros ? [= <-]; congruence || done
     | rewrite ?elem_of_app, ?elem_of_cons; auto 10
     | split; [eauto | done] || (split; [done | by intros [? ?]]) ]).
Qed.
